(** * Snake game (src/game.ts): a shallow embedding and its properties

    The TypeScript module drives a grid snake game with an RxJS pipeline:
    [timer$ |> withLatestFrom(heading$) |> scan(step, state0)
            |> startWith(state0) |> takeWhile(isAlive) |> takeUntil(destroyed$)]
    and a subscriber that paints the incremental diff into an SVG element.

    Conventions of the embedding:
    - a JavaScript number that holds a grid coordinate, a pixel size or a
      tick count is an integer of [Z] (the code only adds and subtracts one,
      divides with [Math.floor] and compares; all values stay far inside the
      exactly represented range of a double);
    - [Number -> String] conversion of such an integer is stdpp's [pretty]
      (decimal digits, a leading minus sign for negatives);
    - a thrown [TypeError] is [None];
    - calls to collaborators (console, end-of-game form, score display) are
      recorded as a list of [Effect]s;
    - [Math.random] is an oracle: the cell that [board.random()] would return
      is an argument of the transition. *)

From Stdlib Require Import ZArith String Ascii List Bool Lia.
From stdpp Require Import base option list strings pretty gmap.

Local Open Scope Z_scope.

(** ** Heading *)

Module Heading.
(** [type Heading = "N" | "E" | "S" | "W"] *)
Inductive t : Set := N | E | S | W.

Definition eqb (h1 h2 : t) : bool :=
  match h1, h2 with
  | N, N | E, E | S, S | W, W => true
  | _, _ => false
  end.
End Heading.

Definition isOpposite (heading1 heading2 : Heading.t) : bool :=
  match heading1 with
  | Heading.N => Heading.eqb heading2 Heading.S
  | Heading.E => Heading.eqb heading2 Heading.W
  | Heading.S => Heading.eqb heading2 Heading.N
  | Heading.W => Heading.eqb heading2 Heading.E
  end.

(** ** CellLocation *)

Module CellLocation.
Record t : Set := mk { x : Z; y : Z }.

Definition next (this : t) (heading : Heading.t) : t :=
  match heading with
  | Heading.N => mk (x this) (y this - 1)
  | Heading.E => mk (x this + 1) (y this)
  | Heading.S => mk (x this) (y this + 1)
  | Heading.W => mk (x this - 1) (y this)
  end.

(** [get id() { return this.x + "_" + this.y; }] *)
Definition id (this : t) : string :=
  pretty (x this) +:+ "_" +:+ pretty (y this).
End CellLocation.

(** ** Board *)

Record Rect : Set := { rx : Z; ry : Z; rwidth : Z; rheight : Z }.

Module Board.
Record t : Set := mk { width : Z; height : Z; cellSize : Z }.

(** The constructor: [Math.floor(domRect.width / cellSize)], for a
    bounding rectangle measured in whole pixels. *)
Definition new (domRectWidth domRectHeight cellSize : Z) : t :=
  mk (domRectWidth / cellSize) (domRectHeight / cellSize) cellSize.

(** [size] is accepted and not used, as in the source. *)
Definition startSnake (this : t) (size : Z) (heading : Heading.t)
  : list CellLocation.t :=
  let centre := CellLocation.mk (width this / 2) (height this / 2) in
  [centre; CellLocation.next centre heading].

Definition isWithinBounds (this : t) (location : CellLocation.t) : bool :=
  (CellLocation.x location >=? 0) &&
  (CellLocation.x location <? width this) &&
  (CellLocation.y location >=? 0) &&
  (CellLocation.y location <? height this).

Definition getRect (this : t) (cellLocation : CellLocation.t) : Rect :=
  {| rx := CellLocation.x cellLocation * cellSize this;
     ry := CellLocation.y cellLocation * cellSize this;
     rwidth := cellSize this;
     rheight := cellSize this |}.
End Board.

(** ** GameState *)

Record Snake : Set := { body : list CellLocation.t; heading : Heading.t }.

Record SnakeEvolution : Set :=
  { newHead : list CellLocation.t;   (* snake parts to be added *)
    oldTail : list CellLocation.t }. (* snake parts to be removed *)

Record GameState : Set :=
  { isAlive : bool;
    snake : Snake;
    snakeEvolution : SnakeEvolution;
    foodLocation : option CellLocation.t }.

(** Calls that leave the pipeline. *)
Inductive Effect : Set :=
| ConsoleLog (msg : string) (n : nat)   (* console.log("DEAD!", n) *)
| EndGame (score : nat)                 (* this.endGame(score) *)
| AddScore (score : nat).               (* this.addScore(score) *)

(** ** The transition: the callback of [scan] (game.ts, lines 176-210) *)

(** [isOpposite(acc.snake.heading, curr[1]) ? acc.snake.heading : curr[1]] *)
Definition newHeading (acc : GameState) (curr : Z * Heading.t) : Heading.t :=
  if isOpposite (heading (snake acc)) curr.2
  then heading (snake acc)
  else curr.2.

(** [acc.snake.body[acc.snake.body.length - 1].next(newHeading)]; on an empty
    body the indexing yields [undefined] and the call throws. *)
Definition nextHead (acc : GameState) (curr : Z * Heading.t)
  : option CellLocation.t :=
  c ← last (body (snake acc));
  Some (CellLocation.next c (newHeading acc curr)).

(** [body.find((x) => x.id === h.id) !== undefined] *)
Definition hitsBody (cells : list CellLocation.t) (h : CellLocation.t) : bool :=
  match List.find (fun c => String.eqb (CellLocation.id c) (CellLocation.id h)) cells with
  | Some _ => true
  | None => false
  end.

Definition didDie (board : Board.t) (acc : GameState) (h : CellLocation.t) : bool :=
  negb (Board.isWithinBounds board h) || hitsBody (body (snake acc)) h.

(** [acc.foodLocation && acc.foodLocation.id === newHead.id], as a truth value *)
Definition didEat (acc : GameState) (h : CellLocation.t) : bool :=
  match foodLocation acc with
  | Some food => String.eqb (CellLocation.id food) (CellLocation.id h)
  | None => false
  end.

(** [!acc.foodLocation] *)
Definition absent {A : Type} (o : option A) : bool :=
  match o with
  | Some _ => false
  | None => true
  end.

(** [rnd] is the cell [this.board.random()] returns when it is called. *)
Definition scanStep (board : Board.t) (rnd : CellLocation.t)
    (acc : GameState) (curr : Z * Heading.t) : option (GameState * list Effect) :=
  h ← nextHead acc curr;
  if didDie board acc h then
    let n := length (body (snake acc)) in
    Some ({| isAlive := false;
             snake := snake acc;
             snakeEvolution := snakeEvolution acc;
             foodLocation := foodLocation acc |},
          [ConsoleLog "DEAD!" n; EndGame n])
  else
    let ate := didEat acc h in
    (* [acc.snake.body[0]]: defined, the body has a last cell *)
    c0 ← head (body (snake acc));
    Some ({| isAlive := true;
             snake := {| body := if ate
                                 then body (snake acc) ++ [h]
                                 else drop 1 (body (snake acc)) ++ [h];
                         heading := newHeading acc curr |};
             snakeEvolution := {| newHead := [h];
                                  oldTail := if ate then [] else [c0] |};
             foodLocation := if ate || absent (foodLocation acc)
                             then Some rnd
                             else foodLocation acc |},
          []).

Definition state0 (board : Board.t) : GameState :=
  let startSnake := Board.startSnake board 2 Heading.E in
  {| isAlive := true;
     snake := {| body := startSnake; heading := Heading.E |};
     snakeEvolution := {| newHead := startSnake; oldTail := [] |};
     foodLocation := None |}.

(** States the pipeline can hold in its accumulator: [state0], and whatever
    the transition returns from a live accumulator ([takeWhile] lets no
    tick reach [scan] after a dead one). *)
Inductive reachable (board : Board.t) : GameState -> Prop :=
| reachable_state0 : reachable board (state0 board)
| reachable_scan rnd acc curr st eff :
    reachable board acc ->
    isAlive acc = true ->
    scanStep board rnd acc curr = Some (st, eff) ->
    reachable board st.

(** ** heading$ : the keyboard side of [withLatestFrom] *)

(** [filter] on the four arrow keys followed by [map]. *)
Definition headingOfKey (key : string) : option Heading.t :=
  if String.eqb key "ArrowUp" then Some Heading.N
  else if String.eqb key "ArrowRight" then Some Heading.E
  else if String.eqb key "ArrowDown" then Some Heading.S
  else if String.eqb key "ArrowLeft" then Some Heading.W
  else None.

(** ** The subscription *)

Inductive Status : Set :=
| Subscribed (acc : GameState)  (* running; [acc] is the accumulator of [scan] *)
| Completed                     (* [takeWhile] saw a dead state *)
| Cancelled                     (* [takeUntil]: [destroyed$] fired *)
| Failed.                       (* an exception escaped a callback *)

Record Stream : Set :=
  { status : Status;
    latest : Heading.t;   (* last value of [heading$], seeded with "E" *)
    ticks : Z }.          (* next value of [timer$] *)

(** What one event makes the pipeline hand over. *)
Record Output : Set :=
  { pushed : list GameState;   (* values passed to the subscriber *)
    calls : list Effect }.     (* collaborator calls made by [scan] *)

Definition silent : Output := {| pushed := []; calls := [] |}.

Inductive StreamEvent : Set :=
| KeyDown (key : string)
| TimerFire (rnd : CellLocation.t).

Module Pipeline.
(** Subscription: [startWith(state0)] pushes [state0], which passes
    [takeWhile]. *)
Definition subscribe (board : Board.t) : Stream * Output :=
  ({| status := Subscribed (state0 board); latest := Heading.E; ticks := 0 |},
   {| pushed := [state0 board]; calls := [] |}).

Definition onKeyDown (key : string) (s : Stream) : Stream :=
  match status s, headingOfKey key with
  | Subscribed _, Some h => {| status := status s; latest := h; ticks := ticks s |}
  | _, _ => s
  end.

(** One tick: [withLatestFrom], [scan], [takeWhile] (not inclusive). *)
Definition onTimer (board : Board.t) (rnd : CellLocation.t) (s : Stream)
  : Stream * Output :=
  match status s with
  | Subscribed acc =>
      match scanStep board rnd acc (ticks s, latest s) with
      | Some (st, eff) =>
          if isAlive st
          then ({| status := Subscribed st; latest := latest s; ticks := ticks s + 1 |},
                {| pushed := [st]; calls := eff |})
          else ({| status := Completed; latest := latest s; ticks := ticks s + 1 |},
                {| pushed := []; calls := eff |})
      | None =>
          ({| status := Failed; latest := latest s; ticks := ticks s + 1 |}, silent)
      end
  | _ => (s, silent)
  end.

Definition handle (board : Board.t) (ev : StreamEvent) (s : Stream)
  : Stream * Output :=
  match ev with
  | KeyDown key => (onKeyDown key s, silent)
  | TimerFire rnd => onTimer board rnd s
  end.

(** A whole run: the outputs of the events, in order. *)
Fixpoint run (board : Board.t) (evs : list StreamEvent) (s : Stream)
  : Stream * Output :=
  match evs with
  | [] => (s, silent)
  | ev :: rest =>
      let '(s1, o1) := handle board ev s in
      let '(s2, o2) := run board rest s1 in
      (s2, {| pushed := pushed o1 ++ pushed o2; calls := calls o1 ++ calls o2 |})
  end.

(** Subscribe, then run. *)
Definition play (board : Board.t) (evs : list StreamEvent) : Stream * Output :=
  let '(s0, o0) := subscribe board in
  let '(s1, o1) := run board evs s0 in
  (s1, {| pushed := pushed o0 ++ pushed o1; calls := calls o0 ++ calls o1 |}).

Definition cancel (s : Stream) : Stream :=
  match status s with
  | Subscribed _ => {| status := Cancelled; latest := latest s; ticks := ticks s |}
  | _ => s
  end.

Definition active (s : Stream) : bool :=
  match status s with
  | Subscribed _ => true
  | _ => false
  end.
End Pipeline.

(** ** The drawing surface and the subscriber *)

(** A child of the SVG element: the [rect] the subscriber creates. *)
Record Element : Set := { elemId : string; elemRect : Rect }.

(** The [SVGSVGElement] handed to [gameOn]: its identity and the rectangle
    [getBoundingClientRect()] reports. Its children live in the [Dom]. *)
Record Surface : Set :=
  { surfaceId : nat; boundingWidth : Z; boundingHeight : Z }.

Definition getElementById (id : string) (children : list Element) : option Element :=
  List.find (fun e => String.eqb (elemId e) id) children.

(** [el.remove()] for the element [getElementById] found: the first child
    carrying that id goes. *)
Fixpoint removeFirst (id : string) (children : list Element) : list Element :=
  match children with
  | [] => []
  | e :: rest =>
      if String.eqb (elemId e) id then rest else e :: removeFirst id rest
  end.

Definition svgRect (board : Board.t) (id : string) (cell : CellLocation.t) : Element :=
  {| elemId := id; elemRect := Board.getRect board cell |}.

(** [oldTail.forEach(c => svg.getElementById(c.id).remove())]; the flag is
    [false] when a lookup returned [null] and [.remove()] threw. *)
Fixpoint removeTails (cells : list CellLocation.t) (children : list Element)
  : list Element * bool :=
  match cells with
  | [] => (children, true)
  | c :: rest =>
      match getElementById (CellLocation.id c) children with
      | Some _ => removeTails rest (removeFirst (CellLocation.id c) children)
      | None => (children, false)
      end
  end.

(** The subscriber (game.ts, lines 215-269): new children, the calls it
    makes, and whether it returned normally. *)
Definition render (board : Board.t) (gameState : GameState)
    (children : list Element) : list Element * list Effect * bool :=
  let added :=
    children ++ map (fun c => svgRect board (CellLocation.id c) c)
                    (newHead (snakeEvolution gameState)) in
  let '(pruned, ok) := removeTails (oldTail (snakeEvolution gameState)) added in
  if ok then
    let unfed :=
      match getElementById "food" pruned with
      | Some food =>
          if match foodLocation gameState with
             | None => true
             | Some f => negb (String.eqb (CellLocation.id f) (elemId food))
             end
          then removeFirst "food" pruned
          else pruned
      | None => pruned
      end in
    match foodLocation gameState with
    | Some f =>
        (unfed ++ [svgRect board "food" f],
         [AddScore (length (body (snake gameState)))], true)
    | None => (unfed, [], true)
    end
  else (pruned, [], false).

(** ** Game and the session controller *)

Definition CELL_SIZE : Z := 16.

(** Children of every surface, by [surfaceId]; a surface never drawn on has
    no entry. *)
Definition childrenOf (dom : gmap nat (list Element)) (svg : Surface) : list Element :=
  default [] (dom !! surfaceId svg).

Module Game.
(** A [Game] object: its fields, and the pipelines its [gameOn()] has
    subscribed (all of them listen to its [destroyed$]). *)
Record t : Set :=
  mk { svg : Surface; cellSize : Z; board : Board.t; streams : list Stream }.

Definition new (svg : Surface) (cellSize : Z) : t :=
  mk svg cellSize
     (Board.new (boundingWidth svg) (boundingHeight svg) cellSize) [].

(** Hand a pushed state to the subscriber; an exception there ends the
    subscription (RxJS 6 unsubscribes a subscriber whose [next] handler
    throws). No property below depends on that case. *)
Definition deliver (this : t) (gameState : GameState) (s : Stream)
    (dom : gmap nat (list Element)) : Stream * gmap nat (list Element) * list Effect :=
  let '(children, eff, ok) := render (board this) gameState (childrenOf dom (svg this)) in
  (if ok then s else {| status := Failed; latest := latest s; ticks := ticks s |},
   <[surfaceId (svg this) := children]> dom,
   eff).

(** [gameOn()]: build the pipeline and subscribe; [state0] is painted at
    once. *)
Definition gameOn (this : t) (dom : gmap nat (list Element))
  : t * gmap nat (list Element) * list Effect :=
  let '(s, _) := Pipeline.subscribe (board this) in
  let '(s', dom', eff) := deliver this (state0 (board this)) s dom in
  (mk (svg this) (cellSize this) (board this) (streams this ++ [s']), dom', eff).

(** [abandon()]: fire [destroyed$], then remove every child node. *)
Definition abandon (this : t) (dom : gmap nat (list Element))
  : t * gmap nat (list Element) :=
  (mk (svg this) (cellSize this) (board this) (map Pipeline.cancel (streams this)),
   <[surfaceId (svg this) := []]> dom).
End Game.

(** The module-level state: [currentGame], the document, and the calls made
    so far. *)
Record World : Set :=
  { currentGame : option Game.t;
    dom : gmap nat (list Element);
    log : list Effect }.

(** [export function gameOn(svg)] *)
Definition gameOn (svg : Surface) (w : World) : World :=
  let '(game, dom1) :=
    match currentGame w with
    | Some g => Game.abandon g (dom w)
    | None => (Game.new svg CELL_SIZE, dom w)
    end in
  let '(game', dom2, eff) := Game.gameOn game dom1 in
  {| currentGame := Some game'; dom := dom2; log := log w ++ eff |}.

(** What can happen to the page: a click on the start button with the
    surface it passes, a key, or the timer of the [i]-th pipeline firing. *)
Inductive Event : Set :=
| Click (svg : Surface)
| Key (key : string)
| Timer (i : nat) (rnd : CellLocation.t).

(** The [i]-th pipeline of [game] takes a tick; a pushed state is painted. *)
Definition timerFires (i : nat) (rnd : CellLocation.t) (game : Game.t)
    (dom : gmap nat (list Element)) : Game.t * gmap nat (list Element) * list Effect :=
  match Game.streams game !! i with
  | Some s =>
      let '(s1, out) := Pipeline.onTimer (Game.board game) rnd s in
      let '(s2, dom', eff) :=
        match pushed out with
        | st :: _ => Game.deliver game st s1 dom
        | [] => (s1, dom, [])
        end in
      (Game.mk (Game.svg game) (Game.cellSize game) (Game.board game)
               (<[i := s2]> (Game.streams game)),
       dom', calls out ++ eff)
  | None => (game, dom, [])
  end.

Definition step (ev : Event) (w : World) : World :=
  match ev with
  | Click svg => gameOn svg w
  | Key key =>
      {| currentGame :=
           (fun g => Game.mk (Game.svg g) (Game.cellSize g) (Game.board g)
                             (map (Pipeline.onKeyDown key) (Game.streams g)))
             <$> currentGame w;
         dom := dom w;
         log := log w |}
  | Timer i rnd =>
      match currentGame w with
      | Some g =>
          let '(g', dom', eff) := timerFires i rnd g (dom w) in
          {| currentGame := Some g'; dom := dom'; log := log w ++ eff |}
      | None => w
      end
  end.

(** The page before the first click. *)
Definition fresh (w : World) : Prop := currentGame w = None.

Inductive reachableWorld : World -> Prop :=
| reachable_fresh w : fresh w -> reachableWorld w
| reachable_step ev w : reachableWorld w -> reachableWorld (step ev w).

(** Pipelines still running. *)
Definition activeStreams (w : World) : list Stream :=
  match currentGame w with
  | Some g => filter (fun s => Pipeline.active s = true) (Game.streams g)
  | None => []
  end.

(** A string without the separator of [CellLocation.id]. *)
Fixpoint underscoreFree (s : string) : bool :=
  match s with
  | EmptyString => true
  | String c rest => negb (Ascii.eqb c "_") && underscoreFree rest
  end.

(** The board of the bounds scenario: 5 by 5 cells of 16 pixels. *)
Definition board5 : Board.t := Board.mk 5 5 16.

Definition cell (x y : Z) : CellLocation.t := CellLocation.mk x y.

(** The bounds scenario after its first tick, with food drawn at (0,0). *)
Definition board5_tick1 : GameState :=
  {| isAlive := true;
     snake := {| body := [cell 3 2; cell 4 2]; heading := Heading.E |};
     snakeEvolution := {| newHead := [cell 4 2]; oldTail := [cell 2 2] |};
     foodLocation := Some (cell 0 0) |}.

(** Two drawing surfaces and a page on which nothing has been started. *)
Definition surfaceA : Surface :=
  {| surfaceId := 0; boundingWidth := 80; boundingHeight := 80 |}.
Definition surfaceB : Surface :=
  {| surfaceId := 1; boundingWidth := 160; boundingHeight := 160 |}.
Definition blankPage : World :=
  {| currentGame := None; dom := ∅; log := [] |}.

(** The rectangles the subscriber paints for [state0]. *)
Definition startRects (board : Board.t) : list Element :=
  map (fun c => svgRect board (CellLocation.id c) c)
      (Board.startSnake board 2 Heading.E).

(** The four pairs the spec calls exact opposites. *)
Inductive exactOpposite : Heading.t -> Heading.t -> Prop :=
| opposite_NS : exactOpposite Heading.N Heading.S
| opposite_SN : exactOpposite Heading.S Heading.N
| opposite_EW : exactOpposite Heading.E Heading.W
| opposite_WE : exactOpposite Heading.W Heading.E.

(** ** Further definitions used by the properties of the rest of the code *)

(** What the surface shows for a state: one rectangle per body cell, oldest
    first, each under the key of its cell, then the food rectangle. *)
Definition painted (board : Board.t) (gameState : GameState) : list Element :=
  map (fun c => svgRect board (CellLocation.id c) c) (body (snake gameState)) ++
  match foodLocation gameState with
  | Some f => [svgRect board "food" f]
  | None => []
  end.

(** Events of the page, handled in order. *)
Definition runEvents (evs : list Event) (w : World) : World :=
  foldl (fun w ev => step ev w) w evs.

(** The headings a list of pressed keys sends down [heading$]. *)
Definition headingsOfKeys (keys : list string) : list Heading.t :=
  omap headingOfKey keys.



(** Every cell of the grid, column by column. *)
Definition allCells (board : Board.t) : list CellLocation.t :=
  map (fun p => CellLocation.mk p.1 p.2)
      (list_prod (seqZ 0 (Board.width board)) (seqZ 0 (Board.height board))).


(** The surface of the game shows the state of every running pipeline, and
    no pipeline has failed. *)
Definition showsGame (w : World) : Prop :=
  match currentGame w with
  | None => True
  | Some g =>
      Forall (fun s => status s <> Failed) (Game.streams g) /\
      forall s acc,
        In s (Game.streams g) ->
        status s = Subscribed acc ->
        childrenOf (dom w) (Game.svg g) = painted (Game.board g) acc
  end.

(** The invariant behind [showsGame]: only the pipeline subscribed last can
    be running, on a live reachable accumulator that the surface shows. *)
Definition worldInv (w : World) : Prop :=
  match currentGame w with
  | None => dom w = ∅
  | Some g =>
      exists old s,
        Game.streams g = old ++ [s] /\
        Forall (fun s => status s = Completed \/ status s = Cancelled) old /\
        (status s = Completed \/
         exists acc,
           status s = Subscribed acc /\
           reachable (Game.board g) acc /\
           isAlive acc = true /\
           childrenOf (dom w) (Game.svg g) = painted (Game.board g) acc)
  end.

(** ** The end-of-game form (game.ts, lines 286-320) *)

(** What the form handlers change: [localStorage], a map from names to
    strings, and whether the end-of-game block is displayed. The leaderboard
    list that [CreateScoreBoard] rebuilds from the store is not modelled; it
    writes nothing back. *)
Record ScorePage : Set :=
  { localStorage : gmap string string;
    endGameVisible : bool }.

(** [formSubmition(event, score)], with [name] the value of the name field. *)
Definition formSubmition (name : string) (score : nat) (p : ScorePage) : ScorePage :=
  if String.eqb name "" then p
  else {| localStorage := <[name := pretty score]> (localStorage p);
          endGameVisible := false |}.

(** Every call of [endGame(score)] adds one more submit listener that holds
    its own [score]; the listeners are the [EndGame] calls made so far, in
    order. *)
Definition submitListeners (calls : list Effect) : list nat :=
  omap (fun e => match e with EndGame score => Some score | _ => None end) calls.

(** A submit event runs the listeners in the order they were added. *)
Definition submit (name : string) (calls : list Effect) (p : ScorePage) : ScorePage :=
  foldl (fun p score => formSubmition name score p) p (submitListeners calls).

(** ** Steps on doubles *)

Module Double.
(** 2^53: every integer up to here, in absolute value, is a double. *)
Definition limit : Z := 9007199254740992.

(** The double nearest to the integer [z], ties going to the even
    significand: what [a + b] or [a - b] returns on doubles when its exact
    result is [z]. Past [limit] a double keeps 53 significant bits. *)
Definition round (z : Z) : Z :=
  if Z.abs z <? limit then z
  else
    let u := 2 ^ (Z.log2 (Z.abs z) - 52) in
    let q := Z.abs z / u in
    let r := Z.abs z mod u in
    Z.sgn z *
    (if 2 * r <? u then q * u
     else if u <? 2 * r then (q + 1) * u
     else if Z.even q then q * u else (q + 1) * u).

(** An integer that is a double. *)
Definition representable (z : Z) : Prop := round z = z.
End Double.

(** [CellLocation.next] with [this.x + 1], [this.y - 1], ... rounded as the
    doubles of the source round them. It is [CellLocation.next] wherever the
    coordinates are below [Double.limit] in absolute value, which holds for
    every cell of a game; it differs from there on. *)
Definition nextRounded (this : CellLocation.t) (heading : Heading.t) : CellLocation.t :=
  match heading with
  | Heading.N =>
      CellLocation.mk (CellLocation.x this) (Double.round (CellLocation.y this - 1))
  | Heading.E =>
      CellLocation.mk (Double.round (CellLocation.x this + 1)) (CellLocation.y this)
  | Heading.S =>
      CellLocation.mk (CellLocation.x this) (Double.round (CellLocation.y this + 1))
  | Heading.W =>
      CellLocation.mk (Double.round (CellLocation.x this - 1)) (CellLocation.y this)
  end.

(** * Properties *)

(** ** Decimal keys *)

Section Keys.

Lemma pretty_N_char_underscoreFree (d : N) (s : string) :
  underscoreFree s = true -> underscoreFree (String (pretty_N_char d) s) = true.
Proof.
  intros Hs. cbn [underscoreFree]. rewrite Hs, andb_true_r.
  unfold pretty_N_char. repeat case_match; reflexivity.
Qed.

Lemma pretty_N_go_underscoreFree (n : N) :
  forall s, underscoreFree s = true -> underscoreFree (pretty_N_go n s) = true.
Proof.
  induction (N.lt_wf_0 n) as [n _ IH]. intros s Hs.
  destruct (N.eq_dec n 0%N) as [-> | Hn].
  - now rewrite pretty_N_go_0.
  - rewrite pretty_N_go_step by lia.
    apply IH.
    + apply N.div_lt; lia.
    + now apply pretty_N_char_underscoreFree.
Qed.

Lemma pretty_N_underscoreFree (n : N) : underscoreFree (pretty n) = true.
Proof.
  unfold pretty, pretty_N. case_decide; [reflexivity |].
  now apply pretty_N_go_underscoreFree.
Qed.

Lemma pretty_Z_underscoreFree (z : Z) : underscoreFree (pretty z) = true.
Proof.
  destruct z as [| p | p]; unfold pretty, pretty_Z; [reflexivity | |].
  - apply pretty_N_underscoreFree.
  - change (underscoreFree (pretty (N.pos p)) = true).
    apply pretty_N_underscoreFree.
Qed.

(** The first separator splits a key in one way only. *)
Lemma underscore_split (s1 : string) :
  forall s2 t1 t2,
    underscoreFree s1 = true -> underscoreFree s2 = true ->
    s1 +:+ "_" +:+ t1 = s2 +:+ "_" +:+ t2 -> s1 = s2 /\ t1 = t2.
Proof.
  induction s1 as [| c s1 IH]; intros [| d s2] t1 t2 H1 H2 Heq; cbn in *.
  - now inversion Heq.
  - inversion Heq; subst d. discriminate.
  - inversion Heq; subst c. discriminate.
  - inversion Heq; subst d.
    apply andb_prop in H1 as [_ H1]. apply andb_prop in H2 as [_ H2].
    destruct (IH s2 t1 t2 H1 H2) as [-> ->]; [assumption | now split].
Qed.

Lemma id_inj (a b : CellLocation.t) : CellLocation.id a = CellLocation.id b -> a = b.
Proof.
  destruct a as [ax ay], b as [bx by_]. unfold CellLocation.id; cbn.
  intros Heq.
  apply underscore_split in Heq as [Hx Hy]; auto using pretty_Z_underscoreFree.
  apply (inj pretty) in Hx, Hy. now subst.
Qed.

Lemma id_eqb (a b : CellLocation.t) :
  String.eqb (CellLocation.id a) (CellLocation.id b) = true <-> a = b.
Proof.
  rewrite String.eqb_eq. split; [apply id_inj | now intros ->].
Qed.

End Keys.

(** ** The tests of the transition, read on coordinates *)

Section Tests.

Lemma hitsBody_In (cells : list CellLocation.t) (h : CellLocation.t) :
  hitsBody cells h = true <-> In h cells.
Proof.
  unfold hitsBody. induction cells as [| c cells IH]; cbn.
  - split; [discriminate | tauto].
  - destruct (String.eqb (CellLocation.id c) (CellLocation.id h)) eqn:Hid.
    + apply id_eqb in Hid. subst c. split; auto.
    + split.
      * intros Hfind. right. now apply IH.
      * intros [-> | Hin]; [| now apply IH].
        rewrite (proj2 (id_eqb h h) eq_refl) in Hid. discriminate.
Qed.

Lemma hitsBody_not_In (cells : list CellLocation.t) (h : CellLocation.t) :
  hitsBody cells h = false <-> ~ In h cells.
Proof.
  rewrite <- hitsBody_In. destruct (hitsBody cells h); split; congruence.
Qed.

Lemma didEat_food (acc : GameState) (h : CellLocation.t) :
  didEat acc h = true <-> foodLocation acc = Some h.
Proof.
  unfold didEat. destruct (foodLocation acc) as [food |].
  - rewrite id_eqb. split; congruence.
  - split; discriminate.
Qed.

Lemma isWithinBounds_spec (board : Board.t) (c : CellLocation.t) :
  Board.isWithinBounds board c = true <->
  0 <= CellLocation.x c < Board.width board /\
  0 <= CellLocation.y c < Board.height board.
Proof.
  unfold Board.isWithinBounds.
  rewrite !andb_true_iff, !Z.geb_le, !Z.ltb_lt. lia.
Qed.

Lemma didDie_spec (board : Board.t) (acc : GameState) (h : CellLocation.t) :
  didDie board acc h = true <->
  ~ (0 <= CellLocation.x h < Board.width board /\
     0 <= CellLocation.y h < Board.height board)
  \/ In h (body (snake acc)).
Proof.
  unfold didDie. rewrite orb_true_iff, negb_true_iff, hitsBody_In.
  rewrite <- isWithinBounds_spec.
  destruct (Board.isWithinBounds board h); intuition congruence.
Qed.

(** The two ways out of the callback. *)
Lemma scanStep_dead board rnd acc curr h :
  nextHead acc curr = Some h ->
  didDie board acc h = true ->
  scanStep board rnd acc curr =
  Some ({| isAlive := false;
           snake := snake acc;
           snakeEvolution := snakeEvolution acc;
           foodLocation := foodLocation acc |},
        [ConsoleLog "DEAD!" (length (body (snake acc)));
         EndGame (length (body (snake acc)))]).
Proof.
  intros Hh Hdie. unfold scanStep. rewrite Hh. cbn. now rewrite Hdie.
Qed.

Lemma nextHead_body (acc : GameState) (curr : Z * Heading.t) (h : CellLocation.t) :
  nextHead acc curr = Some h ->
  exists c0 rest tip,
    body (snake acc) = c0 :: rest /\
    last (body (snake acc)) = Some tip /\
    h = CellLocation.next tip (newHeading acc curr).
Proof.
  unfold nextHead. destruct (last (body (snake acc))) as [tip |] eqn:Hlast; cbn.
  - intros [= <-]. destruct (body (snake acc)) as [| c0 rest].
    + discriminate.
    + now exists c0, rest, tip.
  - discriminate.
Qed.

Lemma scanStep_alive board rnd acc curr h :
  nextHead acc curr = Some h ->
  didDie board acc h = false ->
  exists c0 rest,
    body (snake acc) = c0 :: rest /\
    scanStep board rnd acc curr =
    Some ({| isAlive := true;
             snake := {| body := if didEat acc h
                                 then body (snake acc) ++ [h]
                                 else rest ++ [h];
                         heading := newHeading acc curr |};
             snakeEvolution := {| newHead := [h];
                                  oldTail := if didEat acc h then [] else [c0] |};
             foodLocation := if didEat acc h || absent (foodLocation acc)
                             then Some rnd
                             else foodLocation acc |},
          []).
Proof.
  intros Hh Hdie.
  destruct (nextHead_body _ _ _ Hh) as (c0 & rest & tip & Hbody & _ & _).
  exists c0, rest. split; [assumption |].
  unfold scanStep. rewrite Hh. cbn. rewrite Hdie, Hbody. reflexivity.
Qed.

(** The callback returns whenever the body has a cell. *)
Lemma scanStep_returns board rnd acc curr :
  body (snake acc) <> [] ->
  exists st eff, scanStep board rnd acc curr = Some (st, eff).
Proof.
  intros Hne.
  assert (exists h, nextHead acc curr = Some h) as [h Hh].
  { unfold nextHead. destruct (last (body (snake acc))) as [tip |] eqn:Hlast.
    - eexists; reflexivity.
    - apply last_None in Hlast. contradiction. }
  destruct (didDie board acc h) eqn:Hdie.
  - rewrite (scanStep_dead _ _ _ _ _ Hh Hdie). eauto.
  - destruct (scanStep_alive board rnd _ _ _ Hh Hdie) as (c0 & rest & _ & ->). eauto.
Qed.

End Tests.

(** ** Movement and keys *)

(** On exact integers a step and the opposite step cancel. *)
Lemma next_exact_roundtrip (c : CellLocation.t) (h h2 : Heading.t) :
  isOpposite h h2 = true ->
  CellLocation.next (CellLocation.next c h) h2 = c.
Proof.
  destruct c as [cx cy]. destruct h, h2; cbn; intros Hopp; try discriminate;
    f_equal; lia.
Qed.

(** Up to 2^53 in absolute value an integer is a double. *)
Lemma round_exact (z : Z) : Z.abs z <= Double.limit -> Double.round z = z.
Proof.
  intros Hz. unfold Double.round.
  destruct (Z.ltb_spec (Z.abs z) Double.limit) as [_ | Hge]; [reflexivity |].
  assert (z = Double.limit \/ z = - Double.limit) as [-> | ->] by lia;
    vm_compute; reflexivity.
Qed.

(** Below 2^53 the step on doubles is the step on integers, and it stays
    within 2^53. *)
Lemma nextRounded_exact (c : CellLocation.t) (h : Heading.t) :
  Z.abs (CellLocation.x c) < Double.limit ->
  Z.abs (CellLocation.y c) < Double.limit ->
  nextRounded c h = CellLocation.next c h /\
  Z.abs (CellLocation.x (CellLocation.next c h)) <= Double.limit /\
  Z.abs (CellLocation.y (CellLocation.next c h)) <= Double.limit.
Proof.
  intros Hx Hy. destruct c as [cx cy]. cbn in Hx, Hy.
  destruct h; cbn; rewrite round_exact by lia; repeat split; lia.
Qed.

(** C9 (as the code has it). For every cell [c] whose coordinates are
    integers below 2^53 in absolute value and headings [h], [h2] with
    [isOpposite h h2], one step in [h] followed by one step in [h2], taken
    on doubles as the code takes them, ends on a cell with the coordinates
    of [c]. *)
Theorem next_opposite_roundtrip (c : CellLocation.t) (h h2 : Heading.t) :
  Z.abs (CellLocation.x c) < Double.limit ->
  Z.abs (CellLocation.y c) < Double.limit ->
  isOpposite h h2 = true ->
  CellLocation.x (nextRounded (nextRounded c h) h2) = CellLocation.x c /\
  CellLocation.y (nextRounded (nextRounded c h) h2) = CellLocation.y c.
Proof.
  intros Hx Hy Hopp.
  destruct (nextRounded_exact c h Hx Hy) as (Hfirst & Hx1 & Hy1).
  rewrite Hfirst.
  pose proof (next_exact_roundtrip c h h2 Hopp) as Hback.
  destruct c as [cx cy]. cbn in Hx, Hy.
  destruct h, h2; cbn in Hopp; try discriminate; cbn in *;
    rewrite round_exact by lia; split; lia.
Qed.

Lemma next_opposite_roundtrip_witness :
  Z.abs (CellLocation.x (cell 3 2)) < Double.limit /\
  Z.abs (CellLocation.y (cell 3 2)) < Double.limit /\
  isOpposite Heading.N Heading.S = true /\
  CellLocation.x (nextRounded (nextRounded (cell 3 2) Heading.N) Heading.S) = 3 /\
  CellLocation.y (nextRounded (nextRounded (cell 3 2) Heading.N) Heading.S) = 2.
Proof.
  split; [reflexivity | split; [reflexivity | split; [reflexivity |]]].
  apply (next_opposite_roundtrip (cell 3 2) Heading.N Heading.S);
    reflexivity.
Defined.

(** C9, as stated, fails: 2^53 is a double, a step East from it adds one
    and rounds back to 2^53, and the step West then lands on 2^53 - 1. *)
Lemma next_roundtrip_lost_at_limit :
  Double.representable Double.limit /\
  isOpposite Heading.E Heading.W = true /\
  nextRounded (cell Double.limit 0) Heading.E = cell Double.limit 0 /\
  CellLocation.x (nextRounded (nextRounded (cell Double.limit 0) Heading.E) Heading.W)
    = Double.limit - 1 /\
  CellLocation.x (nextRounded (nextRounded (cell Double.limit 0) Heading.E) Heading.W)
    <> CellLocation.x (cell Double.limit 0).
Proof.
  split; [vm_compute; reflexivity | split; [reflexivity | split]].
  - vm_compute. reflexivity.
  - split; vm_compute; [reflexivity | discriminate].
Qed.

(** C10. Two cells have the same string key exactly when they have the same
    coordinates; so the body search of the death test is membership of the
    cell in the body, and the food comparison is equality with the food
    cell. *)
Theorem id_equal_iff_same_coordinates :
  (forall a b : CellLocation.t,
      CellLocation.id a = CellLocation.id b <->
      CellLocation.x a = CellLocation.x b /\ CellLocation.y a = CellLocation.y b) /\
  (forall (cells : list CellLocation.t) (h : CellLocation.t),
      hitsBody cells h = true <->
      exists c, In c cells /\
                CellLocation.x c = CellLocation.x h /\
                CellLocation.y c = CellLocation.y h) /\
  (forall (acc : GameState) (h : CellLocation.t),
      didEat acc h = true <->
      exists food, foodLocation acc = Some food /\
                   CellLocation.x food = CellLocation.x h /\
                   CellLocation.y food = CellLocation.y h).
Proof.
  split; [| split].
  - intros a b. split.
    + intros Hid. apply id_inj in Hid. now subst.
    + destruct a, b; cbn. now intros [-> ->].
  - intros cells h. rewrite hitsBody_In. split.
    + intros Hin. now exists h.
    + intros ([cx cy] & Hin & Hx & Hy). destruct h; cbn in *. now subst.
  - intros acc h. rewrite didEat_food. split.
    + intros Hfood. now exists h.
    + intros ([fx fy] & Hfood & Hx & Hy). destruct h; cbn in *. now subst.
Qed.

(** ** Turn resolution *)

Lemma isOpposite_exact (h1 h2 : Heading.t) :
  isOpposite h1 h2 = true <-> exactOpposite h1 h2.
Proof.
  split.
  - destruct h1, h2; cbn; intros Hopp; try discriminate; constructor.
  - now destruct 1.
Qed.

(** C6. If the sampled heading is the exact opposite of the heading of the
    previous state, the effective heading is the previous heading; in every
    other case, the unchanged one included, it is the sampled heading. The
    state of a surviving transition carries the effective heading, and a
    reversal request never changes the heading of the state returned. *)
Theorem turn_resolution (acc : GameState) (curr : Z * Heading.t) :
  (exactOpposite (heading (snake acc)) curr.2 ->
   newHeading acc curr = heading (snake acc)) /\
  (~ exactOpposite (heading (snake acc)) curr.2 ->
   newHeading acc curr = curr.2) /\
  (forall board rnd st eff,
      scanStep board rnd acc curr = Some (st, eff) ->
      (isAlive st = true -> heading (snake st) = newHeading acc curr) /\
      (exactOpposite (heading (snake acc)) curr.2 ->
       heading (snake st) = heading (snake acc))).
Proof.
  assert (Hrev : exactOpposite (heading (snake acc)) curr.2 ->
                 newHeading acc curr = heading (snake acc)).
  { intros Hopp. apply isOpposite_exact in Hopp.
    unfold newHeading. now rewrite Hopp. }
  split; [exact Hrev | split].
  - intros Hno. unfold newHeading.
    destruct (isOpposite (heading (snake acc)) curr.2) eqn:Hopp; [| reflexivity].
    apply isOpposite_exact in Hopp. contradiction.
  - intros board rnd st eff Hstep.
    destruct (nextHead acc curr) as [h |] eqn:Hh.
    + destruct (didDie board acc h) eqn:Hdie.
      * rewrite (scanStep_dead _ _ _ _ _ Hh Hdie) in Hstep.
        injection Hstep as <- <-. cbn. split; [discriminate | reflexivity].
      * destruct (scanStep_alive board rnd _ _ _ Hh Hdie) as (c0 & rest & _ & Heq).
        rewrite Heq in Hstep. injection Hstep as <- <-. cbn.
        split; [reflexivity | exact Hrev].
    + unfold scanStep in Hstep. rewrite Hh in Hstep. discriminate.
Qed.

Lemma turn_resolution_witness :
  exactOpposite (heading (snake (state0 board5))) Heading.W /\
  newHeading (state0 board5) (0, Heading.W) = Heading.E /\
  ~ exactOpposite (heading (snake (state0 board5))) Heading.S /\
  newHeading (state0 board5) (0, Heading.S) = Heading.S.
Proof.
  assert (Hno : ~ exactOpposite (heading (snake (state0 board5))) Heading.S)
    by (cbn; inversion 1).
  split; [constructor | split; [| split; [exact Hno |]]].
  - apply (proj1 (turn_resolution (state0 board5) (0, Heading.W))). constructor.
  - apply (proj1 (proj2 (turn_resolution (state0 board5) (0, Heading.S)))). exact Hno.
Defined.

(** ** Death, growth and the diff *)

(** C7. The death test fires exactly when the new head (the last cell of the
    previous body moved one step in the effective heading) is off the board
    or is a cell of the previous body as it stands before the move, its
    oldest cell included; and the state returned is dead exactly when the
    test fires. *)
Theorem death_test (board : Board.t) (acc : GameState) (curr : Z * Heading.t)
    (h : CellLocation.t) :
  nextHead acc curr = Some h ->
  (exists tip, last (body (snake acc)) = Some tip /\
               h = CellLocation.next tip (newHeading acc curr)) /\
  (didDie board acc h = true <->
   ~ (0 <= CellLocation.x h < Board.width board /\
      0 <= CellLocation.y h < Board.height board)
   \/ In h (body (snake acc))) /\
  (head (body (snake acc)) = Some h -> didDie board acc h = true) /\
  (forall rnd st eff,
      scanStep board rnd acc curr = Some (st, eff) ->
      (isAlive st = false <-> didDie board acc h = true)).
Proof.
  intros Hh. split; [| split; [| split]].
  - destruct (nextHead_body _ _ _ Hh) as (c0 & rest & tip & _ & Hlast & Hnext).
    now exists tip.
  - apply didDie_spec.
  - intros Hhead. apply didDie_spec. right.
    destruct (body (snake acc)) as [| c0 rest]; [discriminate |].
    injection Hhead as ->. now left.
  - intros rnd st eff Hstep.
    destruct (didDie board acc h) eqn:Hdie.
    + rewrite (scanStep_dead _ _ _ _ _ Hh Hdie) in Hstep.
      injection Hstep as <- <-. cbn. tauto.
    + destruct (scanStep_alive board rnd _ _ _ Hh Hdie) as (c0 & rest & _ & Heq).
      rewrite Heq in Hstep. injection Hstep as <- <-. cbn.
      split; discriminate.
Qed.

Lemma death_test_witness :
  nextHead (state0 board5) (0, Heading.E) = Some (cell 4 2) /\
  didDie board5 (state0 board5) (cell 4 2) = false.
Proof.
  assert (Hh : nextHead (state0 board5) (0, Heading.E) = Some (cell 4 2))
    by reflexivity.
  split; [exact Hh |].
  destruct (death_test board5 (state0 board5) (0, Heading.E) (cell 4 2) Hh)
    as (_ & Hiff & _ & _).
  destruct (didDie board5 (state0 board5) (cell 4 2)); [| reflexivity].
  exfalso. destruct (proj1 Hiff eq_refl) as [Hout | Hin].
  - apply Hout. cbn. lia.
  - cbn in Hin. intuition discriminate.
Defined.

(** C5. A surviving transition that eats returns a body one cell longer and
    removes nothing; one that does not eat returns a body of the same length
    and removes exactly the oldest (first) cell of the previous body. *)
Theorem growth_law (board : Board.t) (rnd : CellLocation.t) (acc : GameState)
    (curr : Z * Heading.t) (h : CellLocation.t) (st : GameState) (eff : list Effect) :
  nextHead acc curr = Some h ->
  scanStep board rnd acc curr = Some (st, eff) ->
  isAlive st = true ->
  (didEat acc h = true ->
   length (body (snake st)) = S (length (body (snake acc))) /\
   oldTail (snakeEvolution st) = []) /\
  (didEat acc h = false ->
   length (body (snake st)) = length (body (snake acc)) /\
   exists c0, head (body (snake acc)) = Some c0 /\
              oldTail (snakeEvolution st) = [c0]).
Proof.
  intros Hh Hstep Halive.
  destruct (didDie board acc h) eqn:Hdie.
  - rewrite (scanStep_dead _ _ _ _ _ Hh Hdie) in Hstep.
    injection Hstep as <- <-. discriminate.
  - destruct (scanStep_alive board rnd _ _ _ Hh Hdie) as (c0 & rest & Hbody & Heq).
    rewrite Heq in Hstep. injection Hstep as <- <-. cbn.
    split; intros ->; cbn.
    + split; [| reflexivity]. rewrite length_app. cbn. lia.
    + rewrite Hbody. split.
      * rewrite length_app. cbn. lia.
      * now exists c0.
Qed.

Lemma growth_law_witness :
  exists st,
    scanStep board5 (cell 0 0) (state0 board5) (0, Heading.E) = Some (st, []) /\
    length (body (snake st)) = length (body (snake (state0 board5))) /\
    oldTail (snakeEvolution st) = [cell 2 2].
Proof.
  eexists. split; [vm_compute; reflexivity |].
  destruct (growth_law board5 (cell 0 0) (state0 board5) (0, Heading.E) (cell 4 2)
              _ [] eq_refl ltac:(vm_compute; reflexivity) eq_refl) as [_ Hshrink].
  destruct (Hshrink eq_refl) as (Hlen & c0 & Hhead & Htail).
  split; [exact Hlen |].
  injection Hhead as <-. exact Htail.
Defined.

(** C1 (as the code has it). When the death test fires on a live state, the
    callback returns that state with [isAlive] set to [false] and nothing
    else touched: same snake (body and heading), same food, and the diff of
    the previous state, not an empty one. It also calls the end-of-game
    notifier with the body length. *)
Theorem death_keeps_previous_state (board : Board.t) (rnd : CellLocation.t)
    (acc : GameState) (curr : Z * Heading.t) (h : CellLocation.t) :
  isAlive acc = true ->
  nextHead acc curr = Some h ->
  didDie board acc h = true ->
  exists st,
    scanStep board rnd acc curr =
      Some (st, [ConsoleLog "DEAD!" (length (body (snake acc)));
                 EndGame (length (body (snake acc)))]) /\
    isAlive st = false /\
    snake st = snake acc /\
    foodLocation st = foodLocation acc /\
    snakeEvolution st = snakeEvolution acc.
Proof.
  intros _ Hh Hdie. eexists. split.
  - apply (scanStep_dead _ _ _ _ _ Hh Hdie).
  - cbn. repeat split.
Qed.

(** The state of the bounds scenario after its first tick. *)
Lemma first_tick_board5 (rnd : CellLocation.t) (t : Z) :
  scanStep board5 rnd (state0 board5) (t, Heading.E) =
  Some ({| isAlive := true;
           snake := {| body := [cell 3 2; cell 4 2]; heading := Heading.E |};
           snakeEvolution := {| newHead := [cell 4 2]; oldTail := [cell 2 2] |};
           foodLocation := Some rnd |}, []).
Proof.
  assert (Hh : nextHead (state0 board5) (t, Heading.E) = Some (cell 4 2))
    by reflexivity.
  assert (Hdie : didDie board5 (state0 board5) (cell 4 2) = false).
  { unfold didDie. apply orb_false_iff. split; [reflexivity |].
    apply hitsBody_not_In. cbn. intuition discriminate. }
  destruct (scanStep_alive board5 rnd _ _ _ Hh Hdie) as (c0 & rest & Hbody & ->).
  cbn in Hbody. injection Hbody as <- <-. reflexivity.
Qed.

Lemma death_keeps_previous_state_witness :
  isAlive board5_tick1 = true /\
  nextHead board5_tick1 (1, Heading.E) = Some (cell 5 2) /\
  didDie board5 board5_tick1 (cell 5 2) = true /\
  exists st,
    scanStep board5 (cell 0 0) board5_tick1 (1, Heading.E) =
      Some (st, [ConsoleLog "DEAD!" 2; EndGame 2]) /\
    isAlive st = false /\
    snake st = snake board5_tick1 /\
    foodLocation st = foodLocation board5_tick1 /\
    snakeEvolution st = snakeEvolution board5_tick1.
Proof.
  split; [reflexivity | split; [reflexivity | split; [vm_compute; reflexivity |]]].
  apply (death_keeps_previous_state board5 (cell 0 0) board5_tick1
           (1, Heading.E) (cell 5 2)).
  - reflexivity.
  - reflexivity.
  - vm_compute; reflexivity.
Defined.

(** C1, as stated, fails: on the 5 by 5 board the second tick East kills the
    snake, and the dead state still carries the diff of the first tick. *)
Lemma death_diff_not_empty :
  reachable board5 board5_tick1 /\
  isAlive board5_tick1 = true /\
  nextHead board5_tick1 (1, Heading.E) = Some (cell 5 2) /\
  didDie board5 board5_tick1 (cell 5 2) = true /\
  exists st eff,
    scanStep board5 (cell 0 0) board5_tick1 (1, Heading.E) = Some (st, eff) /\
    isAlive st = false /\
    newHead (snakeEvolution st) = [cell 4 2] /\
    oldTail (snakeEvolution st) = [cell 2 2] /\
    ~ (newHead (snakeEvolution st) = [] /\ oldTail (snakeEvolution st) = []).
Proof.
  split; [| split; [reflexivity | split; [reflexivity | split; [vm_compute; reflexivity |]]]].
  - apply (reachable_scan board5 (cell 0 0) (state0 board5) (0, Heading.E) _ []).
    + constructor.
    + reflexivity.
    + apply first_tick_board5.
  - eexists. eexists. split; [vm_compute; reflexivity |].
    cbn. repeat split. intros [Habs _]. discriminate.
Qed.

(** ** The bounds scenario *)

(** C4 (as the code has it). On the 5 by 5 board, from a state with body
    [(2,2),(3,2)] heading East, with East sampled and no eating: the first
    tick gives the live body [(3,2),(4,2)]; the second tick would put the
    head on (5,2), which is off the board, and returns a dead state with the
    body of the first tick. *)
Theorem bounds_scenario (rnd1 rnd2 : CellLocation.t) (t1 t2 : Z) (acc : GameState) :
  body (snake acc) = [cell 2 2; cell 3 2] ->
  heading (snake acc) = Heading.E ->
  didEat acc (cell 4 2) = false ->
  exists st1 st2 eff,
    scanStep board5 rnd1 acc (t1, Heading.E) = Some (st1, []) /\
    isAlive st1 = true /\
    body (snake st1) = [cell 3 2; cell 4 2] /\
    nextHead st1 (t2, Heading.E) = Some (cell 5 2) /\
    Board.isWithinBounds board5 (cell 5 2) = false /\
    scanStep board5 rnd2 st1 (t2, Heading.E) = Some (st2, eff) /\
    isAlive st2 = false /\
    body (snake st2) = [cell 3 2; cell 4 2].
Proof.
  intros Hbody Hheading Hfast.
  assert (Hh : nextHead acc (t1, Heading.E) = Some (cell 4 2)).
  { unfold nextHead, newHeading. rewrite Hbody, Hheading. reflexivity. }
  assert (Hdie : didDie board5 acc (cell 4 2) = false).
  { unfold didDie. apply orb_false_iff. split; [reflexivity |].
    apply hitsBody_not_In. rewrite Hbody. cbn. intuition discriminate. }
  destruct (scanStep_alive board5 rnd1 _ _ _ Hh Hdie) as (c0 & rest & Hcons & Heq).
  rewrite Hfast in Heq. rewrite Hbody in Hcons. injection Hcons as <- <-.
  unfold newHeading in Heq. rewrite Hheading in Heq. cbn in Heq.
  eexists. eexists. eexists.
  split; [exact Heq |].
  split; [reflexivity |]. split; [reflexivity |].
  split; [reflexivity |]. split; [reflexivity |].
  split.
  - apply scanStep_dead with (h := cell 5 2); reflexivity.
  - split; reflexivity.
Qed.

Lemma bounds_scenario_witness :
  exists st2 eff,
    scanStep board5 (cell 0 0) board5_tick1 (1, Heading.E) = Some (st2, eff) /\
    isAlive st2 = false /\
    body (snake st2) = [cell 3 2; cell 4 2].
Proof.
  destruct (bounds_scenario (cell 0 0) (cell 0 0) 0 1 (state0 board5)
              eq_refl eq_refl eq_refl)
    as (st1 & st2 & eff & H1 & _ & _ & _ & _ & H2 & Hdead & Hbody).
  rewrite first_tick_board5 in H1. injection H1 as <-.
  exists st2, eff. repeat split; assumption.
Defined.

(** C4, as stated, fails: after two ticks the state is already dead. *)
Lemma bounds_scenario_dead_after_two_ticks :
  exists st1 st2 eff,
    scanStep board5 (cell 0 0) (state0 board5) (0, Heading.E) = Some (st1, []) /\
    didEat (state0 board5) (cell 4 2) = false /\
    scanStep board5 (cell 0 0) st1 (1, Heading.E) = Some (st2, eff) /\
    body (snake st2) = [cell 3 2; cell 4 2] /\
    isAlive st2 <> true.
Proof.
  exists board5_tick1. eexists. eexists.
  split; [apply first_tick_board5 |].
  split; [reflexivity |].
  split; [vm_compute; reflexivity |].
  split; [reflexivity | discriminate].
Qed.

(** ** Invariants of the accumulator *)

Section Invariants.

Variable board : Board.t.

Lemma state0_NoDup : NoDup (body (snake (state0 board))).
Proof.
  cbn. apply NoDup_cons. split; [| apply NoDup_singleton].
  intros Hin. apply list_elem_of_singleton in Hin.
  injection Hin as Hx. lia.
Qed.

(** One transition keeps the body free of repetitions. *)
Lemma scanStep_NoDup rnd acc curr st eff :
  scanStep board rnd acc curr = Some (st, eff) ->
  NoDup (body (snake acc)) ->
  NoDup (body (snake st)).
Proof.
  intros Hstep Hnd.
  destruct (nextHead acc curr) as [h |] eqn:Hh.
  2: { unfold scanStep in Hstep. rewrite Hh in Hstep. discriminate. }
  destruct (didDie board acc h) eqn:Hdie.
  - rewrite (scanStep_dead _ _ _ _ _ Hh Hdie) in Hstep.
    injection Hstep as <- <-. exact Hnd.
  - destruct (scanStep_alive board rnd _ _ _ Hh Hdie) as (c0 & rest & Hbody & Heq).
    rewrite Heq in Hstep. injection Hstep as <- <-. cbn.
    apply orb_false_iff in Hdie as [_ Hmiss].
    apply hitsBody_not_In in Hmiss. rewrite <- list_elem_of_In in Hmiss.
    rewrite Hbody in Hnd, Hmiss.
    assert (Hfresh : forall l, NoDup l -> h ∉ l -> NoDup (l ++ [h])).
    { intros l Hl Hnot. apply NoDup_app. split; [exact Hl | split].
      - intros c Hc Hc'. apply list_elem_of_singleton in Hc'. now subst.
      - apply NoDup_singleton. }
    destruct (didEat acc h).
    + rewrite Hbody. now apply Hfresh.
    + apply NoDup_cons in Hnd as [_ Hrest].
      apply Hfresh; [exact Hrest |].
      intros Hin. apply Hmiss. now right.
Qed.

Lemma reachable_NoDup st : reachable board st -> NoDup (body (snake st)).
Proof.
  induction 1 as [| rnd acc curr st eff _ IH _ Hstep].
  - apply state0_NoDup.
  - exact (scanStep_NoDup _ _ _ _ _ Hstep IH).
Qed.

(** A reachable body always has a cell, so the callback never throws. *)
Lemma reachable_body st : reachable board st -> body (snake st) <> [].
Proof.
  induction 1 as [| rnd acc curr st eff _ IH _ Hstep].
  - discriminate.
  - destruct (nextHead acc curr) as [h |] eqn:Hh.
    2: { unfold scanStep in Hstep. rewrite Hh in Hstep. discriminate. }
    destruct (didDie board acc h) eqn:Hdie.
    + rewrite (scanStep_dead _ _ _ _ _ Hh Hdie) in Hstep.
      injection Hstep as <- <-. exact IH.
    + destruct (scanStep_alive board rnd _ _ _ Hh Hdie) as (c0 & rest & Hbody & Heq).
      rewrite Heq in Hstep. injection Hstep as <- <-. cbn.
      destruct (didEat acc h); [rewrite Hbody |]; intros Habs;
        apply app_eq_nil in Habs as [_ Habs]; discriminate.
Qed.

Lemma reachable_step_returns rnd st curr :
  reachable board st ->
  exists st' eff, scanStep board rnd st curr = Some (st', eff).
Proof.
  intros Hr. apply scanStep_returns. exact (reachable_body st Hr).
Qed.

End Invariants.



(** ** The end of a stream *)

Section Termination.

Variable board : Board.t.

(** A dead state comes out of the death branch only. *)
Lemma scanStep_dead_inv rnd acc curr st eff :
  scanStep board rnd acc curr = Some (st, eff) ->
  isAlive st = false ->
  eff = [ConsoleLog "DEAD!" (length (body (snake acc)));
         EndGame (length (body (snake acc)))].
Proof.
  intros Hstep Hdead.
  destruct (nextHead acc curr) as [h |] eqn:Hh.
  2: { unfold scanStep in Hstep. rewrite Hh in Hstep. discriminate. }
  destruct (didDie board acc h) eqn:Hdie.
  - rewrite (scanStep_dead _ _ _ _ _ Hh Hdie) in Hstep. now injection Hstep as <- <-.
  - destruct (scanStep_alive board rnd _ _ _ Hh Hdie) as (c0 & rest & _ & Heq).
    rewrite Heq in Hstep. injection Hstep as <- <-. discriminate.
Qed.

Lemma onTimer_dead rnd s acc st eff :
  status s = Subscribed acc ->
  scanStep board rnd acc (ticks s, latest s) = Some (st, eff) ->
  isAlive st = false ->
  Pipeline.onTimer board rnd s =
  ({| status := Completed; latest := latest s; ticks := ticks s + 1 |},
   {| pushed := []; calls := eff |}).
Proof.
  intros Hs Hstep Hdead. unfold Pipeline.onTimer.
  now rewrite Hs, Hstep, Hdead.
Qed.

(** Nothing moves a stream that is no longer subscribed. *)
Lemma run_inactive evs s :
  Pipeline.active s = false -> Pipeline.run board evs s = (s, silent).
Proof.
  intros Hs. induction evs as [| ev evs IH]; cbn; [reflexivity |].
  assert (Hev : Pipeline.handle board ev s = (s, silent)).
  { unfold Pipeline.active in Hs.
    destruct ev as [key | rnd]; cbn.
    - unfold Pipeline.onKeyDown. now destruct (status s).
    - unfold Pipeline.onTimer. now destruct (status s). }
  now rewrite Hev, IH.
Qed.

End Termination.

(** C2 (as the code has it). When a tick makes the transition return a dead
    state, the stream completes without handing that state to the
    subscriber: nothing is pushed, the drawing surface is left as it was,
    the end-of-game notifier has been called once, by the transition, with
    the body length, and no later event produces a state or a call. *)
Theorem dead_state_completes_stream (board : Board.t) (rnd : CellLocation.t)
    (s : Stream) (acc st : GameState) (eff : list Effect) :
  status s = Subscribed acc ->
  scanStep board rnd acc (ticks s, latest s) = Some (st, eff) ->
  isAlive st = false ->
  status (Pipeline.onTimer board rnd s).1 = Completed /\
  pushed (Pipeline.onTimer board rnd s).2 = [] /\
  calls (Pipeline.onTimer board rnd s).2 =
    [ConsoleLog "DEAD!" (length (body (snake acc)));
     EndGame (length (body (snake acc)))] /\
  (forall evs,
      Pipeline.run board evs (Pipeline.onTimer board rnd s).1 =
      ((Pipeline.onTimer board rnd s).1, silent)) /\
  (forall game i d,
      Game.board game = board ->
      Game.streams game !! i = Some s ->
      (timerFires i rnd game d).1.2 = d /\
      (timerFires i rnd game d).2 =
        [ConsoleLog "DEAD!" (length (body (snake acc)));
         EndGame (length (body (snake acc)))]).
Proof.
  intros Hs Hstep Hdead.
  pose proof (scanStep_dead_inv _ _ _ _ _ _ Hstep Hdead) as Heff.
  rewrite (onTimer_dead _ _ _ _ _ _ Hs Hstep Hdead). cbn.
  split; [reflexivity | split; [reflexivity | split; [exact Heff | split]]].
  - intros evs. now apply run_inactive.
  - intros game i d Hboard Hi. unfold timerFires.
    rewrite Hi, Hboard, (onTimer_dead _ _ _ _ _ _ Hs Hstep Hdead). cbn.
    rewrite app_nil_r. now split.
Qed.

Lemma dead_state_completes_stream_witness :
  Pipeline.onTimer board5 (cell 0 0)
    {| status := Subscribed board5_tick1; latest := Heading.E; ticks := 1 |} =
  ({| status := Completed; latest := Heading.E; ticks := 2 |},
   {| pushed := []; calls := [ConsoleLog "DEAD!" 2; EndGame 2] |}).
Proof.
  pose proof (dead_state_completes_stream board5 (cell 0 0)
                {| status := Subscribed board5_tick1; latest := Heading.E; ticks := 1 |}
                board5_tick1 _ _ eq_refl ltac:(vm_compute; reflexivity) eq_refl)
    as (Hstatus & Hpushed & Hcalls & _).
  destruct (Pipeline.onTimer board5 (cell 0 0) _) as [[stat lat tk] [p c]] eqn:Heq.
  cbn in Hstatus, Hpushed, Hcalls. subst stat p c.
  unfold Pipeline.onTimer in Heq. cbn in Heq.
  injection Heq as <- <-. reflexivity.
Defined.

(** C2, as stated, fails: three ticks East on the 5 by 5 board. The second
    tick returns a dead state; the subscriber has received [state0] and the
    state of the first tick, and no dead state. *)
Lemma dead_state_not_delivered :
  (exists st eff,
      scanStep board5 (cell 0 0) board5_tick1 (1, Heading.E) = Some (st, eff) /\
      isAlive st = false) /\
  pushed (Pipeline.play board5
            [TimerFire (cell 0 0); TimerFire (cell 0 0); TimerFire (cell 0 0)]).2
  = [state0 board5; board5_tick1] /\
  Forall (fun st => isAlive st = true)
    (pushed (Pipeline.play board5
               [TimerFire (cell 0 0); TimerFire (cell 0 0); TimerFire (cell 0 0)]).2).
Proof.
  assert (Hplay :
    pushed (Pipeline.play board5
              [TimerFire (cell 0 0); TimerFire (cell 0 0); TimerFire (cell 0 0)]).2
    = [state0 board5; board5_tick1]) by (vm_compute; reflexivity).
  split; [| split; [exact Hplay |]].
  - eexists. eexists. split; [vm_compute; reflexivity | reflexivity].
  - rewrite Hplay. repeat constructor.
Qed.

(** ** The session controller *)

Section Controller.

Lemma underscoreFree_separator (s t : string) :
  underscoreFree (s +:+ "_" +:+ t) = false.
Proof.
  induction s as [| c s IH]; [reflexivity |].
  change (negb (Ascii.eqb c "_") && underscoreFree (s +:+ "_" +:+ t) = false).
  rewrite IH. apply andb_false_r.
Qed.

(** No cell key is the reserved id of the food element. *)
Lemma id_not_food (c : CellLocation.t) :
  String.eqb (CellLocation.id c) "food" = false.
Proof.
  apply String.eqb_neq. intros Heq.
  pose proof (underscoreFree_separator (pretty (CellLocation.x c))
                                       (pretty (CellLocation.y c))) as Hsep.
  unfold CellLocation.id in Heq. rewrite Heq in Hsep. discriminate.
Qed.

Lemma render_state0_blank (board : Board.t) :
  render board (state0 board) [] = (startRects board, [], true).
Proof.
  unfold render, startRects, getElementById. cbn.
  now rewrite !id_not_food.
Qed.

(** Painting [state0] cannot throw: it removes no tail. *)
Lemma render_state0_ok (board : Board.t) (children : list Element) :
  (render board (state0 board) children).2 = true.
Proof.
  unfold render.
  cbn [state0 snakeEvolution oldTail newHead removeTails foodLocation].
  reflexivity.
Qed.

Lemma gameOn_streams (this : Game.t) (d : gmap nat (list Element)) :
  Game.streams (Game.gameOn this d).1.1 =
    Game.streams this ++ [(Pipeline.subscribe (Game.board this)).1] /\
  Game.svg (Game.gameOn this d).1.1 = Game.svg this /\
  Game.cellSize (Game.gameOn this d).1.1 = Game.cellSize this /\
  Game.board (Game.gameOn this d).1.1 = Game.board this.
Proof.
  unfold Game.gameOn, Game.deliver. cbn.
  pose proof (render_state0_ok (Game.board this) (childrenOf d (Game.svg this))) as Hok.
  destruct (render _ _ _) as [[children eff] ok]. cbn in Hok. subst ok.
  cbn. repeat split.
Qed.

Lemma filter_active_cancel (l : list Stream) :
  filter (fun s => Pipeline.active s = true) (map Pipeline.cancel l) = [].
Proof.
  induction l as [| s l IH]; [reflexivity | cbn [map]].
  rewrite filter_cons_False; [exact IH |].
  unfold Pipeline.cancel, Pipeline.active. destruct (status s) eqn:Hs; cbn;
    rewrite ?Hs; discriminate.
Qed.

Lemma filter_active_keydown (key : string) (l : list Stream) :
  length (filter (fun s => Pipeline.active s = true) (map (Pipeline.onKeyDown key) l)) =
  length (filter (fun s => Pipeline.active s = true) l).
Proof.
  induction l as [| s l IH]; [reflexivity | cbn [map]].
  assert (Hsame : Pipeline.active (Pipeline.onKeyDown key s) = Pipeline.active s).
  { unfold Pipeline.onKeyDown, Pipeline.active.
    destruct (status s) eqn:Hs; destruct (headingOfKey key); cbn; rewrite ?Hs; reflexivity. }
  rewrite !filter_cons. rewrite Hsame.
  destruct (decide (Pipeline.active s = true)); cbn [length]; now rewrite IH.
Qed.

Lemma filter_active_insert (l : list Stream) :
  forall i s s',
    l !! i = Some s ->
    (Pipeline.active s' = true -> Pipeline.active s = true) ->
    (length (filter (fun s => Pipeline.active s = true) (<[i := s']> l)) <=
     length (filter (fun s => Pipeline.active s = true) l))%nat.
Proof.
  induction l as [| a l IH]; intros [| i] s s' Hi Himp; try discriminate.
  - injection Hi as ->. cbn [insert list_insert]. rewrite !filter_cons.
    destruct (decide (Pipeline.active s' = true)) as [Hs' |];
      destruct (decide (Pipeline.active s = true)) as [| Hs]; cbn [length]; try lia.
    exfalso. apply Hs, Himp, Hs'.
  - cbn [insert list_insert]. rewrite !filter_cons. specialize (IH i s s' Hi Himp).
    destruct (decide (Pipeline.active a = true)); cbn [length];
      [apply le_n_S |]; exact IH.
Qed.

Lemma onTimer_active (board : Board.t) (rnd : CellLocation.t) (s : Stream) :
  Pipeline.active (Pipeline.onTimer board rnd s).1 = true -> Pipeline.active s = true.
Proof.
  unfold Pipeline.onTimer, Pipeline.active.
  destruct (status s) eqn:Hs; cbn; rewrite ?Hs; try discriminate. reflexivity.
Qed.

Lemma deliver_active (this : Game.t) (st : GameState) (s : Stream)
    (d : gmap nat (list Element)) :
  Pipeline.active (Game.deliver this st s d).1.1 = true -> Pipeline.active s = true.
Proof.
  unfold Game.deliver. destruct (render _ _ _) as [[children eff] [|]]; cbn.
  - tauto.
  - discriminate.
Qed.

Lemma timerFires_active (i : nat) (rnd : CellLocation.t) (game : Game.t)
    (d : gmap nat (list Element)) :
  (length (filter (fun s => Pipeline.active s = true)
                  (Game.streams (timerFires i rnd game d).1.1)) <=
   length (filter (fun s => Pipeline.active s = true) (Game.streams game)))%nat.
Proof.
  unfold timerFires. destruct (Game.streams game !! i) as [s |] eqn:Hi; [| cbn; lia].
  pose proof (onTimer_active (Game.board game) rnd s) as Htimer.
  destruct (Pipeline.onTimer (Game.board game) rnd s) as [s1 out]. cbn in Htimer.
  destruct (pushed out) as [| st rest].
  - cbn. now apply filter_active_insert with (s := s).
  - pose proof (deliver_active game st s1 d) as Hdel.
    destruct (Game.deliver game st s1 d) as [[s2 d'] eff]. cbn in *.
    apply filter_active_insert with (s := s); auto.
Qed.

(** After [gameOn], exactly the pipeline just subscribed is running. *)
Lemma activeStreams_gameOn (svg : Surface) (w : World) :
  exists game,
    currentGame (gameOn svg w) = Some game /\
    activeStreams (gameOn svg w) = [(Pipeline.subscribe (Game.board game)).1].
Proof.
  unfold gameOn, activeStreams.
  destruct (currentGame w) as [old |].
  - pose proof (gameOn_streams
                  (Game.abandon old (dom w)).1 (Game.abandon old (dom w)).2)
      as (Hstreams & _ & _ & Hboard).
    destruct (Game.abandon old (dom w)) as [g1 d1] eqn:Hab.
    injection Hab as <- <-.
    destruct (Game.gameOn _ _) as [[game' d2] eff].
    cbn [fst snd Game.streams Game.board currentGame] in *.
    exists game'. split; [reflexivity |].
    rewrite Hstreams, Hboard, filter_app, filter_active_cancel. reflexivity.
  - pose proof (gameOn_streams (Game.new svg CELL_SIZE) (dom w))
      as (Hstreams & _ & _ & Hboard).
    destruct (Game.gameOn _ _) as [[game' d2] eff].
    cbn [fst snd Game.streams Game.board currentGame Game.new] in *.
    exists game'. split; [reflexivity |].
    rewrite Hstreams, Hboard. reflexivity.
Qed.

Lemma reachableWorld_one_active (w : World) :
  reachableWorld w -> (length (activeStreams w) <= 1)%nat.
Proof.
  induction 1 as [w Hfresh | ev w _ IH].
  - unfold activeStreams. rewrite Hfresh. cbn. lia.
  - destruct ev as [svg | key | i rnd]; cbn.
    + destruct (activeStreams_gameOn svg w) as (game & _ & ->). cbn. lia.
    + unfold activeStreams in *. cbn.
      destruct (currentGame w) as [g |]; cbn; [| lia].
      now rewrite filter_active_keydown.
    + unfold activeStreams in *.
      destruct (currentGame w) as [g |] eqn:Hg; [| now rewrite Hg].
      pose proof (timerFires_active i rnd g (dom w)) as Hle.
      destruct (timerFires i rnd g (dom w)) as [[g' d'] eff]. cbn in *. lia.
Qed.

End Controller.

(** Restarting the current game: the old pipelines are cancelled, the
    surface of the game is emptied and [state0] is painted on it. *)
Lemma gameOn_after_abandon (old : Game.t) (d : gmap nat (list Element)) :
  Game.gameOn (Game.abandon old d).1 (Game.abandon old d).2 =
  (Game.mk (Game.svg old) (Game.cellSize old) (Game.board old)
           (map Pipeline.cancel (Game.streams old) ++
            [(Pipeline.subscribe (Game.board old)).1]),
   <[surfaceId (Game.svg old) := startRects (Game.board old)]>
     (<[surfaceId (Game.svg old) := []]> d),
   []).
Proof.
  unfold Game.gameOn, Game.abandon, Game.deliver, childrenOf.
  cbn [fst snd Game.svg Game.board Game.streams Game.cellSize Pipeline.subscribe].
  rewrite lookup_insert_eq. cbn [default].
  now rewrite render_state0_blank.
Qed.

(** C3 (as the code has it). A call [gameOn(surface)] leaves exactly one
    pipeline running, and before any call at most one runs. When no game
    exists, a game bound to the given surface is constructed and started.
    When a game exists it is abandoned (its pipelines cancelled, every child
    of its surface removed) and that same game is started again: it stays
    bound to the surface and board it was constructed with, the surface
    passed to the call is not used, and no other surface is touched. *)
Theorem gameOn_restarts_current_game (svg : Surface) (w : World) :
  reachableWorld w ->
  (length (activeStreams w) <= 1)%nat /\
  exists game,
    currentGame (gameOn svg w) = Some game /\
    activeStreams (gameOn svg w) = [(Pipeline.subscribe (Game.board game)).1] /\
    match currentGame w with
    | None =>
        Game.svg game = svg /\
        Game.board game =
          Board.new (boundingWidth svg) (boundingHeight svg) CELL_SIZE /\
        Game.streams game = [(Pipeline.subscribe (Game.board game)).1]
    | Some old =>
        Game.svg game = Game.svg old /\
        Game.board game = Game.board old /\
        Game.streams game =
          map Pipeline.cancel (Game.streams old) ++
          [(Pipeline.subscribe (Game.board old)).1] /\
        childrenOf (dom (gameOn svg w)) (Game.svg old) = startRects (Game.board old) /\
        (forall other,
            surfaceId other <> surfaceId (Game.svg old) ->
            childrenOf (dom (gameOn svg w)) other = childrenOf (dom w) other)
    end.
Proof.
  intros Hr. split; [now apply reachableWorld_one_active |].
  destruct (activeStreams_gameOn svg w) as (game & Hgame & Hactive).
  exists game. split; [exact Hgame | split; [exact Hactive |]].
  unfold gameOn in Hgame |- *.
  destruct (currentGame w) as [old |].
  - pose proof (gameOn_after_abandon old (dom w)) as Hrestart.
    destruct (Game.abandon old (dom w)) as [g1 d1].
    cbn [fst snd] in Hrestart. rewrite Hrestart in Hgame |- *.
    cbn [currentGame dom] in Hgame |- *. injection Hgame as <-.
    cbn [Game.svg Game.board Game.streams].
    repeat split.
    + unfold childrenOf. now rewrite lookup_insert_eq.
    + intros other Hother. unfold childrenOf.
      now rewrite !lookup_insert_ne by congruence.
  - pose proof (gameOn_streams (Game.new svg CELL_SIZE) (dom w))
      as (Hstreams & Hsvg & _ & Hboard).
    destruct (Game.gameOn _ _) as [[game' d2] eff].
    cbn [fst snd currentGame Game.new Game.svg Game.board Game.streams]
      in Hgame, Hstreams, Hsvg, Hboard.
    injection Hgame as <-.
    rewrite Hboard. repeat split; assumption.
Qed.

Lemma gameOn_restarts_current_game_witness :
  reachableWorld (gameOn surfaceA blankPage) /\
  (length (activeStreams (gameOn surfaceA blankPage)) <= 1)%nat.
Proof.
  assert (Hr : reachableWorld (gameOn surfaceA blankPage)).
  { apply (reachable_step (Click surfaceA)). now apply reachable_fresh. }
  split; [exact Hr |].
  apply (proj1 (gameOn_restarts_current_game surfaceB _ Hr)).
Defined.

(** C3, as stated, fails: a second call with another surface does not bind
    the session to it. The game keeps the first surface and its 5 by 5
    board, and nothing is drawn on the second surface. *)
Lemma gameOn_ignores_new_surface :
  exists game,
    currentGame (gameOn surfaceB (gameOn surfaceA blankPage)) = Some game /\
    Game.svg game = surfaceA /\
    Game.svg game <> surfaceB /\
    Game.board game = board5 /\
    Game.board game <> Board.new (boundingWidth surfaceB) (boundingHeight surfaceB) CELL_SIZE /\
    childrenOf (dom (gameOn surfaceB (gameOn surfaceA blankPage))) surfaceB = [].
Proof.
  eexists. split; [vm_compute; reflexivity |].
  cbn [Game.svg Game.board].
  split; [reflexivity | split; [discriminate | split; [reflexivity | split]]].
  - discriminate.
  - vm_compute. reflexivity.
Qed.

(** * Properties of the rest of the code *)

(** ** Headings and movement *)

(** X1. [isOpposite] is symmetric, no heading is its own opposite, and every
    heading has exactly one opposite. *)
Theorem isOpposite_relation :
  (forall h1 h2, isOpposite h1 h2 = isOpposite h2 h1) /\
  (forall h, isOpposite h h = false) /\
  (forall h, exists h', isOpposite h h' = true /\
                        forall h'', isOpposite h h'' = true -> h'' = h').
Proof.
  split; [| split].
  - intros [] []; reflexivity.
  - intros []; reflexivity.
  - intros [];
      [exists Heading.S | exists Heading.W | exists Heading.N | exists Heading.E];
      (split; [reflexivity | intros []; cbn; congruence]).
Qed.

(** On exact integers a step moves by one, and determines its heading and
    its origin. *)
Lemma next_exact_unit_step (c : CellLocation.t) (h : Heading.t) :
  Z.abs (CellLocation.x (CellLocation.next c h) - CellLocation.x c) +
  Z.abs (CellLocation.y (CellLocation.next c h) - CellLocation.y c) = 1 /\
  (forall h', CellLocation.next c h = CellLocation.next c h' -> h = h') /\
  (forall c', CellLocation.next c h = CellLocation.next c' h -> c = c').
Proof.
  destruct c as [cx cy]. split; [| split].
  - destruct h; cbn; lia.
  - intros h' Heq. destruct h, h'; cbn in Heq; try reflexivity;
      injection Heq; intros; lia.
  - intros [cx' cy'] Heq. destruct h; cbn in Heq; injection Heq; intros;
      f_equal; lia.
Qed.

(** X2. From a cell whose coordinates are integers below 2^53 in absolute
    value, a step taken on doubles as the code takes it ends at distance
    exactly one; two headings that lead from the cell to the same cell are
    the same heading, and two such cells that the same heading leads to the
    same cell are the same cell. *)
Theorem next_unit_step (c : CellLocation.t) (h : Heading.t) :
  Z.abs (CellLocation.x c) < Double.limit ->
  Z.abs (CellLocation.y c) < Double.limit ->
  Z.abs (CellLocation.x (nextRounded c h) - CellLocation.x c) +
  Z.abs (CellLocation.y (nextRounded c h) - CellLocation.y c) = 1 /\
  (forall h', nextRounded c h = nextRounded c h' -> h = h') /\
  (forall c',
      Z.abs (CellLocation.x c') < Double.limit ->
      Z.abs (CellLocation.y c') < Double.limit ->
      nextRounded c h = nextRounded c' h -> c = c').
Proof.
  intros Hx Hy.
  destruct (next_exact_unit_step c h) as (Hdist & Hheading & Hcell).
  rewrite (proj1 (nextRounded_exact c h Hx Hy)).
  split; [exact Hdist | split].
  - intros h'. rewrite (proj1 (nextRounded_exact c h' Hx Hy)). apply Hheading.
  - intros c' Hx' Hy'. rewrite (proj1 (nextRounded_exact c' h Hx' Hy')).
    apply Hcell.
Qed.

Lemma next_unit_step_witness :
  Z.abs (CellLocation.x (cell 3 2)) < Double.limit /\
  Z.abs (CellLocation.y (cell 3 2)) < Double.limit /\
  Z.abs (CellLocation.x (nextRounded (cell 3 2) Heading.N) - 3) +
  Z.abs (CellLocation.y (nextRounded (cell 3 2) Heading.N) - 2) = 1.
Proof.
  split; [reflexivity | split; [reflexivity |]].
  apply (proj1 (next_unit_step (cell 3 2) Heading.N eq_refl eq_refl)).
Defined.

(** ** Board *)


(** X4. On a board built from a viewport with a positive cell size, the
    rectangle of every cell within bounds lies inside the viewport. *)
Theorem getRect_inside_viewport (domRectWidth domRectHeight cellSize : Z)
    (c : CellLocation.t) :
  0 < cellSize ->
  Board.isWithinBounds (Board.new domRectWidth domRectHeight cellSize) c = true ->
  let r := Board.getRect (Board.new domRectWidth domRectHeight cellSize) c in
  0 <= rx r /\ rx r + rwidth r <= domRectWidth /\
  0 <= ry r /\ ry r + rheight r <= domRectHeight.
Proof.
  intros Hpos Hin. apply isWithinBounds_spec in Hin. cbn in Hin |- *.
  pose proof (Z.mul_div_le domRectWidth cellSize Hpos).
  pose proof (Z.mul_div_le domRectHeight cellSize Hpos).
  nia.
Qed.

Lemma getRect_inside_viewport_witness :
  0 < 16 /\
  Board.isWithinBounds (Board.new 90 85 16) (cell 4 4) = true /\
  rx (Board.getRect (Board.new 90 85 16) (cell 4 4)) + 16 <= 90.
Proof.
  split; [lia | split; [reflexivity |]].
  apply (getRect_inside_viewport 90 85 16 (cell 4 4)); [lia | reflexivity].
Defined.

(** X5. With a positive cell size, the rectangles of two different cells do
    not overlap: one lies entirely to the left of, or entirely above, the
    other. *)
Theorem getRect_disjoint (board : Board.t) (a b : CellLocation.t) :
  0 < Board.cellSize board ->
  a <> b ->
  let ra := Board.getRect board a in
  let rb := Board.getRect board b in
  rx ra + rwidth ra <= rx rb \/ rx rb + rwidth rb <= rx ra \/
  ry ra + rheight ra <= ry rb \/ ry rb + rheight rb <= ry ra.
Proof.
  intros Hpos Hne. destruct a as [ax ay], b as [bx by_]. cbn.
  assert (ax <> bx \/ ay <> by_) as Hdiff.
  { destruct (Z.eq_dec ax bx) as [-> |]; [| now left].
    right. intros ->. now apply Hne. }
  nia.
Qed.

Lemma getRect_disjoint_witness :
  0 < Board.cellSize board5 /\ cell 3 2 <> cell 4 2 /\
  (48 + 16 <= 64 \/ 64 + 16 <= 48 \/ 32 + 16 <= 32 \/ 32 + 16 <= 32).
Proof.
  split; [reflexivity | split; [discriminate |]].
  apply (getRect_disjoint board5 (cell 3 2) (cell 4 2)); [reflexivity | discriminate].
Defined.

(** ** The pipeline *)

Section PipelineFacts.

Variable board : Board.t.

Lemma last_cons_default {A : Type} (d a : A) (l : list A) :
  default d (last (a :: l)) = default a (last l).
Proof.
  destruct l as [| b l]; [reflexivity |].
  change (last (a :: b :: l)) with (last (b :: l)).
  destruct (last (b :: l)) eqn:Hlast; [reflexivity |].
  now apply last_None in Hlast.
Qed.

Lemma last_cons_Some {A : Type} (a : A) (l : list A) :
  last (a :: l) = Some (default a (last l)).
Proof.
  revert a. induction l as [| b l IH]; intros a; [reflexivity |].
  change (last (a :: b :: l)) with (last (b :: l)).
  now rewrite IH.
Qed.

Lemma onKeyDown_subscribed key s acc :
  status s = Subscribed acc ->
  Pipeline.onKeyDown key s =
  {| status := Subscribed acc;
     latest := default (latest s) (headingOfKey key);
     ticks := ticks s |}.
Proof.
  intros Hs. unfold Pipeline.onKeyDown. rewrite Hs.
  destruct (headingOfKey key); cbn; [reflexivity |].
  destruct s; cbn in *. now subst.
Qed.

(** A surviving transition makes no call. *)
Lemma scanStep_alive_inv rnd acc curr st eff :
  scanStep board rnd acc curr = Some (st, eff) ->
  isAlive st = true ->
  eff = [] /\ exists h, nextHead acc curr = Some h /\ didDie board acc h = false.
Proof.
  intros Hstep Halive.
  destruct (nextHead acc curr) as [h |] eqn:Hh.
  2: { unfold scanStep in Hstep. rewrite Hh in Hstep. discriminate. }
  destruct (didDie board acc h) eqn:Hdie.
  - rewrite (scanStep_dead _ _ _ _ _ Hh Hdie) in Hstep.
    injection Hstep as <- <-. discriminate.
  - destruct (scanStep_alive board rnd _ _ _ Hh Hdie) as (c0 & rest & _ & Heq).
    rewrite Heq in Hstep. injection Hstep as <- <-. split; [reflexivity | eauto].
Qed.

(** A tick of a running pipeline over a reachable accumulator either pushes
    a live reachable state or completes with the two calls of the death
    branch. *)
Lemma onTimer_cases rnd s acc :
  status s = Subscribed acc ->
  reachable board acc ->
  isAlive acc = true ->
  (exists st,
      scanStep board rnd acc (ticks s, latest s) = Some (st, []) /\
      isAlive st = true /\ reachable board st /\
      Pipeline.onTimer board rnd s =
        ({| status := Subscribed st; latest := latest s; ticks := ticks s + 1 |},
         {| pushed := [st]; calls := [] |})) \/
  Pipeline.onTimer board rnd s =
    ({| status := Completed; latest := latest s; ticks := ticks s + 1 |},
     {| pushed := [];
        calls := [ConsoleLog "DEAD!" (length (body (snake acc)));
                  EndGame (length (body (snake acc)))] |}).
Proof.
  intros Hs Hr Halive.
  destruct (reachable_step_returns board rnd acc (ticks s, latest s) Hr)
    as (st & eff & Hstep).
  destruct (isAlive st) eqn:Hst.
  - left. exists st.
    destruct (scanStep_alive_inv _ _ _ _ _ Hstep Hst) as [-> _].
    split; [exact Hstep | split; [exact Hst | split]].
    + exact (reachable_scan board rnd acc _ st [] Hr Halive Hstep).
    + unfold Pipeline.onTimer. now rewrite Hs, Hstep, Hst.
  - right. rewrite (onTimer_dead board _ _ _ _ _ Hs Hstep Hst).
    now rewrite (scanStep_dead_inv board _ _ _ _ _ Hstep Hst).
Qed.

(** What a run from a running pipeline hands over: live reachable states
    only; the run ends running on the last of them with no call made, or
    completed with the end-of-game call carrying the body length of the last
    of them. *)
Lemma run_outcome evs :
  forall s acc,
    status s = Subscribed acc ->
    reachable board acc ->
    isAlive acc = true ->
    Forall (fun st => isAlive st = true /\ reachable board st)
           (pushed (Pipeline.run board evs s).2) /\
    let final := default acc (last (pushed (Pipeline.run board evs s).2)) in
    (status (Pipeline.run board evs s).1 = Subscribed final /\
     calls (Pipeline.run board evs s).2 = []) \/
    (status (Pipeline.run board evs s).1 = Completed /\
     calls (Pipeline.run board evs s).2 =
       [ConsoleLog "DEAD!" (length (body (snake final)));
        EndGame (length (body (snake final)))]).
Proof.
  induction evs as [| ev evs IH]; intros s acc Hs Hr Halive.
  - cbn. split; [constructor | now left].
  - cbn [Pipeline.run]. destruct ev as [key | rnd]; cbn [Pipeline.handle].
    + specialize (IH (Pipeline.onKeyDown key s) acc).
      rewrite (onKeyDown_subscribed key s acc Hs) in IH |- *.
      specialize (IH eq_refl Hr Halive).
      destruct (Pipeline.run board evs _) as [s2 o2]. cbn in IH |- *. exact IH.
    + destruct (onTimer_cases rnd s acc Hs Hr Halive)
        as [(st & _ & Hst & Hrst & ->) | ->].
      * specialize (IH {| status := Subscribed st; latest := latest s;
                          ticks := ticks s + 1 |} st eq_refl Hrst Hst).
        destruct (Pipeline.run board evs _) as [s2 o2]. cbn in IH |- *.
        destruct IH as [Hall Hend]. split; [constructor; auto |].
        now rewrite last_cons_default.
      * rewrite run_inactive by reflexivity. cbn.
        split; [constructor | now right].
Qed.

End PipelineFacts.

(** X6. Latest value wins: key presses between two ticks push nothing and
    make no call; they leave a running pipeline running on the same
    accumulator, and the heading the next tick samples is the one of the
    last arrow key among them, or the previous one when none was an arrow
    key. *)
Theorem keys_latest_wins (board : Board.t) (keys : list string) (s : Stream)
    (acc : GameState) :
  status s = Subscribed acc ->
  Pipeline.run board (map KeyDown keys) s =
  ({| status := Subscribed acc;
      latest := default (latest s) (last (headingsOfKeys keys));
      ticks := ticks s |},
   silent).
Proof.
  revert s. induction keys as [| key keys IH]; intros s Hs.
  - cbn. destruct s; cbn in *. now subst.
  - cbn [map Pipeline.run Pipeline.handle].
    rewrite (onKeyDown_subscribed key s acc Hs), IH by reflexivity. cbn.
    unfold headingsOfKeys. cbn [omap].
    destruct (headingOfKey key) as [h |]; cbn [default]; [| reflexivity].
    now rewrite last_cons_default.
Qed.

Lemma keys_latest_wins_witness :
  Pipeline.run board5 (map KeyDown ["ArrowUp"; "x"; "ArrowLeft"; "Enter"])
    (Pipeline.subscribe board5).1 =
  ({| status := Subscribed (state0 board5); latest := Heading.W; ticks := 0 |},
   silent).
Proof.
  apply (keys_latest_wins board5 ["ArrowUp"; "x"; "ArrowLeft"; "Enter"]
           (Pipeline.subscribe board5).1 (state0 board5)).
  reflexivity.
Defined.

(** X7. Whatever keys and ticks follow a subscription, the subscriber is
    handed [state0] first and live states only. *)
Theorem play_pushes_live_states (board : Board.t) (evs : list StreamEvent) :
  head (pushed (Pipeline.play board evs).2) = Some (state0 board) /\
  Forall (fun st => isAlive st = true) (pushed (Pipeline.play board evs).2).
Proof.
  unfold Pipeline.play. cbn [Pipeline.subscribe].
  pose proof (run_outcome board evs
                {| status := Subscribed (state0 board); latest := Heading.E; ticks := 0 |}
                (state0 board) eq_refl (reachable_state0 board) eq_refl)
    as [Hall _].
  destruct (Pipeline.run board evs _) as [s1 o1]. cbn in Hall |- *.
  split; [reflexivity |].
  constructor; [reflexivity |].
  eapply Forall_impl; [exact Hall |]. now intros st [Hst _].
Qed.

(** X8. A subscription never fails, whatever keys and ticks follow it.
    Either it is still running on the last state it pushed and has made no
    call, or it has completed after exactly one end-of-game call, whose
    score is the body length of the last state it pushed. *)
Theorem play_ends_once (board : Board.t) (evs : list StreamEvent) :
  exists final,
    last (pushed (Pipeline.play board evs).2) = Some final /\
    ((status (Pipeline.play board evs).1 = Subscribed final /\
      calls (Pipeline.play board evs).2 = []) \/
     (status (Pipeline.play board evs).1 = Completed /\
      calls (Pipeline.play board evs).2 =
        [ConsoleLog "DEAD!" (length (body (snake final)));
         EndGame (length (body (snake final)))])).
Proof.
  unfold Pipeline.play. cbn [Pipeline.subscribe].
  pose proof (run_outcome board evs
                {| status := Subscribed (state0 board); latest := Heading.E; ticks := 0 |}
                (state0 board) eq_refl (reachable_state0 board) eq_refl)
    as [_ Hend].
  destruct (Pipeline.run board evs _) as [s1 o1]. cbn in Hend |- *.
  exists (default (state0 board) (last (pushed o1))). split; [| exact Hend].
  apply last_cons_Some.
Qed.

(** ** More invariants of the accumulator *)

Section Accumulator.

Variable board : Board.t.

Lemma scanStep_length rnd acc curr st eff :
  scanStep board rnd acc curr = Some (st, eff) ->
  (length (body (snake acc)) <= length (body (snake st)) <=
   S (length (body (snake acc))))%nat.
Proof.
  intros Hstep.
  destruct (nextHead acc curr) as [h |] eqn:Hh.
  2: { unfold scanStep in Hstep. rewrite Hh in Hstep. discriminate. }
  destruct (didDie board acc h) eqn:Hdie.
  - rewrite (scanStep_dead _ _ _ _ _ Hh Hdie) in Hstep.
    injection Hstep as <- <-. cbn. lia.
  - destruct (scanStep_alive board rnd _ _ _ Hh Hdie) as (c0 & rest & Hbody & Heq).
    rewrite Heq in Hstep. injection Hstep as <- <-. cbn.
    destruct (didEat acc h); rewrite Hbody, length_app; cbn; lia.
Qed.

Lemma reachable_length st :
  reachable board st -> (2 <= length (body (snake st)))%nat.
Proof.
  induction 1 as [| rnd acc curr st eff _ IH _ Hstep].
  - cbn. lia.
  - pose proof (scanStep_length _ _ _ _ _ Hstep). lia.
Qed.

(** Cells on the board stay on the board. *)
Lemma scanStep_within rnd acc curr st eff :
  scanStep board rnd acc curr = Some (st, eff) ->
  Forall (fun c => Board.isWithinBounds board c = true) (body (snake acc)) ->
  Forall (fun c => Board.isWithinBounds board c = true) (body (snake st)).
Proof.
  intros Hstep Hall.
  destruct (nextHead acc curr) as [h |] eqn:Hh.
  2: { unfold scanStep in Hstep. rewrite Hh in Hstep. discriminate. }
  destruct (didDie board acc h) eqn:Hdie.
  - rewrite (scanStep_dead _ _ _ _ _ Hh Hdie) in Hstep.
    injection Hstep as <- <-. exact Hall.
  - destruct (scanStep_alive board rnd _ _ _ Hh Hdie) as (c0 & rest & Hbody & Heq).
    rewrite Heq in Hstep. injection Hstep as <- <-. cbn.
    apply orb_false_iff in Hdie as [Hin _]. apply negb_false_iff in Hin.
    rewrite Hbody in Hall.
    destruct (didEat acc h); [rewrite Hbody |]; apply Forall_app; split;
      try (constructor; [exact Hin | constructor]).
    + exact Hall.
    + now inversion Hall.
Qed.

Lemma reachable_within st :
  3 <= Board.width board -> 1 <= Board.height board ->
  reachable board st ->
  Forall (fun c => Board.isWithinBounds board c = true) (body (snake st)).
Proof.
  intros Hw Hh. induction 1 as [| rnd acc curr st eff _ IH _ Hstep].
  - cbn. pose proof (Z.div_mod (Board.width board) 2 ltac:(lia)).
    pose proof (Z.mod_pos_bound (Board.width board) 2 ltac:(lia)).
    pose proof (Z.div_mod (Board.height board) 2 ltac:(lia)).
    pose proof (Z.mod_pos_bound (Board.height board) 2 ltac:(lia)).
    repeat constructor; apply isWithinBounds_spec; cbn; lia.
  - exact (scanStep_within _ _ _ _ _ Hstep IH).
Qed.

Lemma allCells_within (c : CellLocation.t) :
  Board.isWithinBounds board c = true -> c ∈ allCells board.
Proof.
  intros Hin. apply isWithinBounds_spec in Hin. destruct c as [cx cy]. cbn in Hin.
  unfold allCells. apply list_elem_of_fmap. exists (cx, cy). split; [reflexivity |].
  apply list_elem_of_In, in_prod; apply list_elem_of_In, elem_of_seqZ; lia.
Qed.

Lemma allCells_length :
  0 <= Board.width board -> 0 <= Board.height board ->
  Z.of_nat (length (allCells board)) = Board.width board * Board.height board.
Proof.
  intros Hw Hh. unfold allCells.
  rewrite length_map, length_prod, !length_seqZ. lia.
Qed.








End Accumulator.

(** X9. In every reachable state the body has at least two cells, so the
    transition never throws there: it returns a state, whose body is as long
    as before or one cell longer. *)
Theorem transition_defined_on_reachable (board : Board.t) (rnd : CellLocation.t)
    (st : GameState) (curr : Z * Heading.t) :
  reachable board st ->
  (2 <= length (body (snake st)))%nat /\
  exists st' eff,
    scanStep board rnd st curr = Some (st', eff) /\
    (length (body (snake st)) <= length (body (snake st')) <=
     S (length (body (snake st))))%nat.
Proof.
  intros Hr. split; [exact (reachable_length board st Hr) |].
  destruct (reachable_step_returns board rnd st curr Hr) as (st' & eff & Hstep).
  exists st', eff. split; [exact Hstep |].
  exact (scanStep_length board _ _ _ _ _ Hstep).
Qed.

Lemma transition_defined_on_reachable_witness :
  reachable board5 (state0 board5) /\
  exists st' eff,
    scanStep board5 (cell 1 1) (state0 board5) (0, Heading.S) = Some (st', eff).
Proof.
  split; [constructor |].
  destruct (transition_defined_on_reachable board5 (cell 1 1) (state0 board5)
              (0, Heading.S) (reachable_state0 board5))
    as (_ & st' & eff & Hstep & _).
  now exists st', eff.
Defined.

(** X10. On a board at least 3 cells wide and 1 cell high, every cell of the
    body of every reachable state lies within the bounds of the board. *)
Theorem body_within_bounds (board : Board.t) (st : GameState) :
  3 <= Board.width board ->
  1 <= Board.height board ->
  reachable board st ->
  forall c, In c (body (snake st)) ->
            0 <= CellLocation.x c < Board.width board /\
            0 <= CellLocation.y c < Board.height board.
Proof.
  intros Hw Hh Hr c Hc. apply isWithinBounds_spec.
  pose proof (reachable_within board st Hw Hh Hr) as Hall.
  rewrite Forall_forall in Hall. apply Hall. now apply list_elem_of_In.
Qed.

Lemma body_within_bounds_witness :
  3 <= Board.width board5 /\ 1 <= Board.height board5 /\
  reachable board5 (state0 board5) /\
  0 <= CellLocation.x (cell 3 2) < 5 /\ 0 <= CellLocation.y (cell 3 2) < 5.
Proof.
  split; [cbn; lia | split; [cbn; lia | split; [constructor |]]].
  apply (body_within_bounds board5 (state0 board5)); cbn; try lia.
  - constructor.
  - right. left. reflexivity.
Defined.

(** X11. On such a board the snake never has more cells than the board: the
    body length, which is the score, is at most width times height. *)
Theorem score_at_most_board_area (board : Board.t) (st : GameState) :
  3 <= Board.width board ->
  1 <= Board.height board ->
  reachable board st ->
  Z.of_nat (length (body (snake st))) <= Board.width board * Board.height board.
Proof.
  intros Hw Hh Hr.
  rewrite <- (allCells_length board) by lia.
  apply inj_le, submseteq_length, NoDup_submseteq.
  - exact (reachable_NoDup board st Hr).
  - intros c Hc. apply allCells_within.
    pose proof (reachable_within board st Hw Hh Hr) as Hall.
    rewrite Forall_forall in Hall. now apply Hall.
Qed.

Lemma score_at_most_board_area_witness :
  3 <= Board.width board5 /\ 1 <= Board.height board5 /\
  reachable board5 board5_tick1 /\
  Z.of_nat (length (body (snake board5_tick1))) <= 5 * 5.
Proof.
  assert (Hr : reachable board5 board5_tick1).
  { apply (reachable_scan board5 (cell 0 0) (state0 board5) (0, Heading.E) _ []).
    - constructor.
    - reflexivity.
    - apply first_tick_board5. }
  split; [cbn; lia | split; [cbn; lia | split; [exact Hr |]]].
  apply (score_at_most_board_area board5 board5_tick1); cbn; try lia. exact Hr.
Defined.










(** ** The subscriber *)

Section Subscriber.

Variable board : Board.t.

(** The food lookup walks past the rectangles of cells. *)
Lemma getElementById_food_cells (cells : list CellLocation.t) (l : list Element) :
  getElementById "food" (map (fun c => svgRect board (CellLocation.id c) c) cells ++ l) =
  getElementById "food" l.
Proof.
  induction cells as [| c cells IH]; [reflexivity |].
  unfold getElementById in *. cbn. now rewrite id_not_food.
Qed.

Lemma removeFirst_food_cells (cells : list CellLocation.t) (l : list Element) :
  removeFirst "food" (map (fun c => svgRect board (CellLocation.id c) c) cells ++ l) =
  map (fun c => svgRect board (CellLocation.id c) c) cells ++ removeFirst "food" l.
Proof.
  induction cells as [| c cells IH]; [reflexivity |].
  cbn. now rewrite id_not_food, IH.
Qed.

(** Painting the state a surviving transition returns, on a surface that
    shows the state before. *)
Lemma render_surviving rnd acc curr st eff :
  scanStep board rnd acc curr = Some (st, eff) ->
  isAlive st = true ->
  render board st (painted board acc) =
  (painted board st, [AddScore (length (body (snake st)))], true).
Proof.
  intros Hstep Halive.
  destruct (scanStep_alive_inv board _ _ _ _ _ Hstep Halive) as (_ & h & Hh & Hdie).
  destruct (scanStep_alive board rnd _ _ _ Hh Hdie) as (c0 & rest & Hbody & Heq).
  rewrite Heq in Hstep. injection Hstep as <- <-.
  unfold render, painted.
  cbn [snakeEvolution newHead oldTail foodLocation snake body map].
  rewrite Hbody.
  destruct (didEat acc h) eqn:Hate.
  - apply didEat_food in Hate. rewrite Hate.
    cbn [orb removeTails].
    rewrite <- app_assoc, getElementById_food_cells.
    cbn [getElementById List.find svgRect elemId app String.eqb Ascii.eqb Bool.eqb].
    rewrite id_not_food. cbn [negb].
    rewrite removeFirst_food_cells.
    cbn [removeFirst svgRect elemId app String.eqb Ascii.eqb Bool.eqb map].
    now rewrite map_app.
  - cbn [orb removeTails map app getElementById List.find svgRect elemId].
    rewrite String.eqb_refl.
    cbn [removeFirst svgRect elemId]. rewrite String.eqb_refl.
    rewrite <- app_assoc, getElementById_food_cells.
    destruct (foodLocation acc) as [f |]; cbn [absent].
    + cbn [getElementById List.find svgRect elemId app String.eqb Ascii.eqb Bool.eqb].
      rewrite id_not_food. cbn [negb].
      rewrite removeFirst_food_cells.
      cbn [removeFirst svgRect elemId app String.eqb Ascii.eqb Bool.eqb].
      now rewrite map_app.
    + cbn [app getElementById List.find svgRect elemId].
      rewrite id_not_food. now rewrite map_app.
Qed.

End Subscriber.

(** X16. The subscriber keeps the surface in step with the state. Painting
    [state0] on an empty surface, and painting the state a surviving
    transition returns on a surface that shows the state before, both give
    exactly the picture of the new state: one rectangle per body cell,
    oldest first, followed by the food. Neither throws; the second reports
    the new body length to the score display. *)
Theorem render_shows_state (board : Board.t) :
  render board (state0 board) [] = (painted board (state0 board), [], true) /\
  forall rnd acc curr st eff,
    scanStep board rnd acc curr = Some (st, eff) ->
    isAlive st = true ->
    render board st (painted board acc) =
    (painted board st, [AddScore (length (body (snake st)))], true).
Proof.
  split.
  - rewrite render_state0_blank. unfold painted, startRects. cbn.
    reflexivity.
  - intros rnd acc curr st eff Hstep Halive.
    exact (render_surviving board rnd acc curr st eff Hstep Halive).
Qed.

Lemma render_shows_state_witness :
  scanStep board5 (cell 0 0) (state0 board5) (0, Heading.E) = Some (board5_tick1, []) /\
  isAlive board5_tick1 = true /\
  render board5 board5_tick1 (painted board5 (state0 board5)) =
  (painted board5 board5_tick1, [AddScore 2], true).
Proof.
  split; [apply first_tick_board5 | split; [reflexivity |]].
  apply (proj2 (render_shows_state board5) (cell 0 0) (state0 board5)
           (0, Heading.E) board5_tick1 []).
  - apply first_tick_board5.
  - reflexivity.
Defined.

(** ** The page as a whole *)

Section Page.

Lemma onKeyDown_status key s : status (Pipeline.onKeyDown key s) = status s.
Proof.
  unfold Pipeline.onKeyDown.
  destruct (status s) eqn:Hs; destruct (headingOfKey key); cbn; now rewrite ?Hs.
Qed.

Lemma onTimer_idle board rnd s :
  status s = Completed \/ status s = Cancelled ->
  Pipeline.onTimer board rnd s = (s, silent).
Proof.
  intros [Hs | Hs]; unfold Pipeline.onTimer; now rewrite Hs.
Qed.

Lemma cancel_idle (l : list Stream) :
  Forall (fun s => status s = Completed \/ status s = Cancelled) l ->
  Forall (fun s => status s = Completed \/ status s = Cancelled)
         (map Pipeline.cancel l).
Proof.
  intros Hall. apply Forall_fmap. eapply Forall_impl; [exact Hall |].
  intros s [Hs | Hs]; unfold Pipeline.cancel; cbn; rewrite Hs; cbn; auto.
Qed.

Lemma worldInv_gameOn svg w : worldInv w -> worldInv (gameOn svg w).
Proof.
  unfold worldInv, gameOn. intros Hinv.
  destruct (currentGame w) as [g |].
  - destruct Hinv as (old & s & Hstreams & Hold & Hlast).
    pose proof (gameOn_after_abandon g (dom w)) as Hrestart.
    destruct (Game.abandon g (dom w)) as [g1 d1].
    cbn [fst snd] in Hrestart. rewrite Hrestart.
    cbn [currentGame dom Game.streams Game.board Game.svg].
    exists (map Pipeline.cancel (Game.streams g)),
      (Pipeline.subscribe (Game.board g)).1.
    split; [reflexivity | split].
    + rewrite Hstreams, map_app. apply Forall_app. split.
      * now apply cancel_idle.
      * constructor; [| constructor].
        unfold Pipeline.cancel.
        destruct Hlast as [Hs | (acc & Hs & _)]; rewrite Hs; cbn; auto.
    + right. exists (state0 (Game.board g)).
      split; [reflexivity | split; [constructor | split; [reflexivity |]]].
      unfold childrenOf. rewrite lookup_insert_eq.
      unfold painted, startRects. cbn. reflexivity.
  - unfold Game.gameOn, Game.deliver, Game.new, childrenOf.
    cbn [Game.board Game.svg Game.streams Game.cellSize Pipeline.subscribe fst snd].
    rewrite Hinv, lookup_empty. cbn [default].
    rewrite render_state0_blank.
    cbn [currentGame dom Game.streams Game.board Game.svg app].
    eexists [], _. split; [reflexivity | split; [constructor |]].
    right. eexists. split; [reflexivity | split; [constructor | split; [reflexivity |]]].
    rewrite lookup_insert_eq.
    unfold painted, startRects. cbn. reflexivity.
Qed.

Lemma worldInv_key key w : worldInv w -> worldInv (step (Key key) w).
Proof.
  unfold worldInv. cbn [step currentGame dom]. intros Hinv.
  destruct (currentGame w) as [g |]; cbn [fmap option_fmap option_map]; [| exact Hinv].
  destruct Hinv as (old & s & Hstreams & Hold & Hlast).
  cbn [Game.streams Game.board Game.svg].
  exists (map (Pipeline.onKeyDown key) old), (Pipeline.onKeyDown key s).
  split; [now rewrite Hstreams, map_app | split].
  - apply Forall_fmap. eapply Forall_impl; [exact Hold |].
    intros s'. cbn. now rewrite onKeyDown_status.
  - rewrite onKeyDown_status.
    destruct Hlast as [Hs | (acc & Hs & Hrest)]; [now left | right; now exists acc].
Qed.

Lemma worldInv_timer i rnd w : worldInv w -> worldInv (step (Timer i rnd) w).
Proof.
  unfold worldInv. cbn [step]. intros Hinv.
  destruct (currentGame w) as [g |] eqn:Hg; [| now rewrite Hg].
  destruct Hinv as (old & s & Hstreams & Hold & Hlast).
  assert (Hkeep :
            timerFires i rnd g (dom w) =
              (Game.mk (Game.svg g) (Game.cellSize g) (Game.board g) (Game.streams g),
               dom w, []) ->
            match currentGame
                    (let '(g', dom', eff) := timerFires i rnd g (dom w) in
                     {| currentGame := Some g'; dom := dom'; log := log w ++ eff |})
            with
            | Some g0 =>
                exists old0 s0,
                  Game.streams g0 = old0 ++ [s0] /\
                  Forall (fun s => status s = Completed \/ status s = Cancelled) old0 /\
                  (status s0 = Completed \/
                   exists acc,
                     status s0 = Subscribed acc /\
                     reachable (Game.board g0) acc /\
                     isAlive acc = true /\
                     childrenOf
                       (dom (let '(g', dom', eff) := timerFires i rnd g (dom w) in
                             {| currentGame := Some g'; dom := dom';
                                log := log w ++ eff |}))
                       (Game.svg g0) = painted (Game.board g0) acc)
            | None =>
                dom (let '(g', dom', eff) := timerFires i rnd g (dom w) in
                     {| currentGame := Some g'; dom := dom'; log := log w ++ eff |}) = ∅
            end).
  { intros ->. cbn. now exists old, s. }
  destruct (Game.streams g !! i) as [si |] eqn:Hi.
  2: { apply Hkeep. unfold timerFires. rewrite Hi. now destruct g. }
  assert (Hsame : forall si',
             Game.streams g !! i = Some si' ->
             status si' = Completed \/ status si' = Cancelled ->
             timerFires i rnd g (dom w) =
             (Game.mk (Game.svg g) (Game.cellSize g) (Game.board g) (Game.streams g),
              dom w, [])).
  { intros si' Hi' Hidle. unfold timerFires.
    rewrite Hi', (onTimer_idle _ _ _ Hidle). cbn.
    now rewrite list_insert_id. }
  rewrite Hstreams in Hi.
  destruct (decide (i < length old)%nat) as [Hlt | Hge].
  - rewrite lookup_app_l in Hi by exact Hlt.
    apply Hkeep, (Hsame si); [now rewrite Hstreams, lookup_app_l |].
    rewrite Forall_forall in Hold. apply Hold.
    eapply list_elem_of_lookup_2, Hi.
  - rewrite lookup_app_r in Hi by lia.
    destruct (i - length old)%nat as [| k] eqn:Hk; [| discriminate].
    injection Hi as <-.
    assert (Hi : Game.streams g !! i = Some s).
    { rewrite Hstreams, lookup_app_r by lia. now rewrite Hk. }
    destruct Hlast as [Hs | (acc & Hs & Hr & Halive & Hshown)].
    { apply Hkeep, (Hsame s Hi). now left. }
    assert (Hins : forall s', <[i := s']> (Game.streams g) = old ++ [s']).
    { intros s'. rewrite Hstreams, insert_app_r_alt by lia. now rewrite Hk. }
    unfold timerFires. rewrite Hi.
    destruct (onTimer_cases (Game.board g) rnd s acc Hs Hr Halive)
      as [(st & Hstep & Hst & Hrst & ->) | ->]; cbn [pushed calls].
    + unfold Game.deliver. rewrite Hshown.
      rewrite (render_surviving _ _ _ _ _ _ Hstep Hst). rewrite Hins.
      cbn [currentGame dom Game.streams Game.board Game.svg].
      exists old, {| status := Subscribed st; latest := latest s; ticks := ticks s + 1 |}.
      split; [reflexivity | split; [exact Hold |]].
      right. exists st. split; [reflexivity | split; [exact Hrst | split; [exact Hst |]]].
      unfold childrenOf. now rewrite lookup_insert_eq.
    + rewrite Hins. cbn [currentGame dom Game.streams Game.board Game.svg].
      exists old, {| status := Completed; latest := latest s; ticks := ticks s + 1 |}.
      split; [reflexivity | split; [exact Hold | now left]].
Qed.

Lemma worldInv_step ev w : worldInv w -> worldInv (step ev w).
Proof.
  destruct ev as [svg | key | i rnd].
  - apply worldInv_gameOn.
  - apply worldInv_key.
  - apply worldInv_timer.
Qed.

Lemma worldInv_runEvents evs : forall w, worldInv w -> worldInv (runEvents evs w).
Proof.
  induction evs as [| ev evs IH]; intros w Hinv; [exact Hinv |].
  cbn. apply IH. now apply worldInv_step.
Qed.

Lemma worldInv_showsGame w : worldInv w -> showsGame w.
Proof.
  unfold worldInv, showsGame. destruct (currentGame w) as [g |]; [| tauto].
  intros (old & s & Hstreams & Hold & Hlast). rewrite Hstreams. split.
  - apply Forall_app. split.
    + eapply Forall_impl; [exact Hold |]. intros s' [Hs | Hs]; rewrite Hs; discriminate.
    + constructor; [| constructor].
      destruct Hlast as [Hs | (acc & Hs & _)]; rewrite Hs; discriminate.
  - intros s' acc Hin Hs'. apply in_app_or in Hin as [Hin | [<- | []]].
    + rewrite Forall_forall in Hold. apply list_elem_of_In, Hold in Hin.
      destruct Hin as [Hs | Hs]; congruence.
    + destruct Hlast as [Hs | (acc' & Hs & _ & _ & Hshown)]; [congruence |].
      rewrite Hs in Hs'. now injection Hs' as <-.
Qed.

End Page.

(** X17. Starting from a page with no game and nothing drawn, after any
    sequence of clicks on start, key presses and timer firings: no pipeline
    has failed (neither the transition nor the subscriber ever threw), and
    the surface of the game shows exactly the state of the running
    pipeline. *)
Theorem page_shows_running_game (evs : list Event) (w : World) :
  currentGame w = None ->
  dom w = ∅ ->
  showsGame (runEvents evs w).
Proof.
  intros Hnone Hblank. apply worldInv_showsGame, worldInv_runEvents.
  unfold worldInv. now rewrite Hnone.
Qed.

Lemma page_shows_running_game_witness :
  showsGame (runEvents [Click surfaceA; Timer 0 (cell 0 0); Key "ArrowDown";
                        Timer 0 (cell 1 1); Click surfaceB; Timer 1 (cell 4 4)]
                       blankPage).
Proof.
  apply (page_shows_running_game _ blankPage); reflexivity.
Defined.

(** X18. [abandon] stops a game for good: none of its pipelines is running
    afterwards, whatever keys and ticks follow none of them pushes a state
    or makes a call, its surface has no child left, and no other surface is
    touched. *)
Theorem abandon_stops_game (this : Game.t) (d : gmap nat (list Element)) :
  Forall (fun s => Pipeline.active s = false /\
                   forall board evs, Pipeline.run board evs s = (s, silent))
         (Game.streams (Game.abandon this d).1) /\
  childrenOf (Game.abandon this d).2 (Game.svg this) = [] /\
  forall other,
    surfaceId other <> surfaceId (Game.svg this) ->
    childrenOf (Game.abandon this d).2 other = childrenOf d other.
Proof.
  unfold Game.abandon, childrenOf. cbn [fst snd Game.streams].
  split; [| split].
  - apply Forall_fmap, Forall_forall. intros s _. cbn.
    assert (Hs : Pipeline.active (Pipeline.cancel s) = false).
    { unfold Pipeline.cancel, Pipeline.active.
      destruct (status s) eqn:Hs; cbn; now rewrite ?Hs. }
    split; [exact Hs |]. intros board evs. now apply run_inactive.
  - now rewrite lookup_insert_eq.
  - intros other Hother. now rewrite lookup_insert_ne by congruence.
Qed.

Lemma abandon_stops_game_witness :
  surfaceId surfaceB <> surfaceId surfaceA /\
  childrenOf (Game.abandon (Game.new surfaceA CELL_SIZE) ∅).2 surfaceB =
  childrenOf ∅ surfaceB.
Proof.
  split; [discriminate |].
  apply (proj2 (proj2 (abandon_stops_game (Game.new surfaceA CELL_SIZE) ∅)) surfaceB).
  discriminate.
Defined.

(** X19. On a board without cells (width or height not positive) nothing is
    within bounds, and every transition from a state with a body returns a
    dead state. *)
Theorem empty_board_kills (board : Board.t) (rnd : CellLocation.t)
    (acc : GameState) (curr : Z * Heading.t) :
  Board.width board <= 0 \/ Board.height board <= 0 ->
  body (snake acc) <> [] ->
  (forall c, Board.isWithinBounds board c = false) /\
  exists st eff,
    scanStep board rnd acc curr = Some (st, eff) /\ isAlive st = false.
Proof.
  intros Hempty Hbody.
  assert (Hout : forall c, Board.isWithinBounds board c = false).
  { intros c. destruct (Board.isWithinBounds board c) eqn:Hin; [| reflexivity].
    apply isWithinBounds_spec in Hin. lia. }
  split; [exact Hout |].
  destruct (last (body (snake acc))) as [tip |] eqn:Hlast.
  2: { now apply last_None in Hlast. }
  assert (Hh : nextHead acc curr =
               Some (CellLocation.next tip (newHeading acc curr))).
  { unfold nextHead. now rewrite Hlast. }
  eexists. eexists. split.
  - apply (scanStep_dead _ _ _ _ _ Hh). unfold didDie. now rewrite Hout.
  - reflexivity.
Qed.

Lemma empty_board_kills_witness :
  (Board.width (Board.new 10 80 16) <= 0 \/ Board.height (Board.new 10 80 16) <= 0) /\
  body (snake (state0 (Board.new 10 80 16))) <> [] /\
  exists st eff,
    scanStep (Board.new 10 80 16) (cell 0 0) (state0 (Board.new 10 80 16))
             (0, Heading.N) = Some (st, eff) /\ isAlive st = false.
Proof.
  assert (Hempty : Board.width (Board.new 10 80 16) <= 0 \/
                   Board.height (Board.new 10 80 16) <= 0)
    by (left; vm_compute; discriminate).
  assert (Hbody : body (snake (state0 (Board.new 10 80 16))) <> []) by discriminate.
  split; [exact Hempty | split; [exact Hbody |]].
  apply (proj2 (empty_board_kills (Board.new 10 80 16) (cell 0 0)
                  (state0 (Board.new 10 80 16)) (0, Heading.N) Hempty Hbody)).
Defined.

(** X20. With a positive cell size the grid is the largest one that fits the
    viewport: its cells cover at most the viewport, and one more column or
    row would stick out. *)
Theorem board_fits_viewport (domRectWidth domRectHeight cellSize : Z) :
  0 < cellSize ->
  let board := Board.new domRectWidth domRectHeight cellSize in
  Board.width board * cellSize <= domRectWidth < (Board.width board + 1) * cellSize /\
  Board.height board * cellSize <= domRectHeight < (Board.height board + 1) * cellSize.
Proof.
  intros Hpos. cbn.
  pose proof (Z.div_mod domRectWidth cellSize ltac:(lia)).
  pose proof (Z.mod_pos_bound domRectWidth cellSize Hpos).
  pose proof (Z.div_mod domRectHeight cellSize ltac:(lia)).
  pose proof (Z.mod_pos_bound domRectHeight cellSize Hpos).
  nia.
Qed.

Lemma board_fits_viewport_witness :
  0 < 16 /\
  Board.width (Board.new 90 85 16) * 16 <= 90 < (Board.width (Board.new 90 85 16) + 1) * 16.
Proof.
  split; [lia |].
  apply (proj1 (board_fits_viewport 90 85 16 ltac:(lia))).
Defined.

(** ** The end-of-game form *)

Lemma formSubmition_named (name : string) (score : nat) (p : ScorePage) :
  name <> "" ->
  formSubmition name score p =
  {| localStorage := <[name := pretty score]> (localStorage p);
     endGameVisible := false |}.
Proof.
  intros Hname. unfold formSubmition.
  now rewrite (proj2 (String.eqb_neq name "") Hname).
Qed.

Lemma submit_fold_last (name : string) (scores : list nat) :
  name <> "" ->
  forall p score,
    last scores = Some score ->
    foldl (fun p score => formSubmition name score p) p scores =
    {| localStorage := <[name := pretty score]> (localStorage p);
       endGameVisible := false |}.
Proof.
  intros Hname. induction scores as [| a scores IH]; intros p score Hlast;
    [discriminate |].
  destruct scores as [| b scores].
  - injection Hlast as ->. cbn. now apply formSubmition_named.
  - change (last (a :: b :: scores)) with (last (b :: scores)) in Hlast.
    etrans; [exact (IH (formSubmition name a p) score Hlast) |].
    rewrite (formSubmition_named name a p Hname). cbn [localStorage].
    now rewrite insert_insert_eq.
Qed.

(** X21. Submitting the end-of-game form. With an empty name, or before any
    game has ended, nothing is stored and the form stays as it is.
    Otherwise the name is stored with the score of the game that ended
    last, in decimal (every listener of an earlier game runs first and is
    overwritten), other names keep their entries, and the form is hidden. *)
Theorem submit_stores_last_score (name : string) (calls : list Effect)
    (p : ScorePage) :
  submit "" calls p = p /\
  (submitListeners calls = [] -> submit name calls p = p) /\
  (name <> "" ->
   forall score,
     last (submitListeners calls) = Some score ->
     submit name calls p =
       {| localStorage := <[name := pretty score]> (localStorage p);
          endGameVisible := false |} /\
     localStorage (submit name calls p) !! name = Some (pretty score) /\
     forall other, other <> name ->
       localStorage (submit name calls p) !! other = localStorage p !! other).
Proof.
  unfold submit. split; [| split].
  - induction (submitListeners calls) as [| a l IH]; [reflexivity | exact IH].
  - now intros ->.
  - intros Hname score Hlast.
    rewrite (submit_fold_last name _ Hname p score Hlast). cbn [localStorage].
    split; [reflexivity | split].
    + apply lookup_insert_eq.
    + intros other Hother. now apply lookup_insert_ne.
Qed.

Lemma submit_stores_last_score_witness :
  "al" <> "" /\
  last (submitListeners [ConsoleLog "DEAD!" 5; EndGame 5;
                         ConsoleLog "DEAD!" 3; EndGame 3]) = Some 3%nat /\
  localStorage (submit "al" [ConsoleLog "DEAD!" 5; EndGame 5;
                             ConsoleLog "DEAD!" 3; EndGame 3]
                       {| localStorage := ∅; endGameVisible := true |}) !! "al"
  = Some "3".
Proof.
  split; [discriminate | split; [reflexivity |]].
  apply (proj2 (proj2 (submit_stores_last_score "al"
                         [ConsoleLog "DEAD!" 5; EndGame 5;
                          ConsoleLog "DEAD!" 3; EndGame 3]
                         {| localStorage := ∅; endGameVisible := true |}))
           ltac:(discriminate) 3%nat eq_refl).
Defined.

(** ** Looking elements up on the surface *)

Section Lookup.

Variable board : Board.t.

Lemma getElementById_cell_hit (cells : list CellLocation.t) (l : list Element)
    (c : CellLocation.t) :
  In c cells ->
  getElementById (CellLocation.id c)
    (map (fun c => svgRect board (CellLocation.id c) c) cells ++ l) =
  Some (svgRect board (CellLocation.id c) c).
Proof.
  induction cells as [| a cells IH]; intros Hin; [destruct Hin |].
  unfold getElementById in *. cbn [map app List.find svgRect elemId].
  destruct (String.eqb (CellLocation.id a) (CellLocation.id c)) eqn:Hid.
  - apply id_eqb in Hid. now subst a.
  - destruct Hin as [-> | Hin]; [| now apply IH].
    rewrite String.eqb_refl in Hid. discriminate.
Qed.

Lemma getElementById_cell_miss (cells : list CellLocation.t) (l : list Element)
    (c : CellLocation.t) :
  ~ In c cells ->
  getElementById (CellLocation.id c)
    (map (fun c => svgRect board (CellLocation.id c) c) cells ++ l) =
  getElementById (CellLocation.id c) l.
Proof.
  induction cells as [| a cells IH]; intros Hin; [reflexivity |].
  unfold getElementById in *. cbn [map app List.find svgRect elemId].
  destruct (String.eqb (CellLocation.id a) (CellLocation.id c)) eqn:Hid.
  - apply id_eqb in Hid. subst a. exfalso. apply Hin. now left.
  - apply IH. intros Hc. apply Hin. now right.
Qed.

End Lookup.

(** X22. Looking up the picture of a state: the key of a body cell finds the
    rectangle of that cell, the key of any other cell finds nothing, and the
    reserved key "food" finds the food rectangle when there is food and
    nothing otherwise; a cell key never finds the food. *)
Theorem painted_lookup (board : Board.t) (st : GameState) :
  (forall c, In c (body (snake st)) ->
             getElementById (CellLocation.id c) (painted board st) =
             Some (svgRect board (CellLocation.id c) c)) /\
  (forall c, ~ In c (body (snake st)) ->
             getElementById (CellLocation.id c) (painted board st) = None) /\
  getElementById "food" (painted board st) =
    match foodLocation st with
    | Some f => Some (svgRect board "food" f)
    | None => None
    end.
Proof.
  unfold painted. split; [| split].
  - intros c Hin. now apply getElementById_cell_hit.
  - intros c Hout. rewrite getElementById_cell_miss by exact Hout.
    destruct (foodLocation st) as [f |]; [| reflexivity].
    unfold getElementById. cbn [List.find svgRect elemId].
    rewrite String.eqb_sym, id_not_food. reflexivity.
  - rewrite getElementById_food_cells.
    destruct (foodLocation st) as [f |]; reflexivity.
Qed.

Lemma painted_lookup_witness :
  In (cell 4 2) (body (snake board5_tick1)) /\
  getElementById "4_2" (painted board5 board5_tick1) =
  Some {| elemId := "4_2";
          elemRect := {| rx := 64; ry := 32; rwidth := 16; rheight := 16 |} |}.
Proof.
  split; [right; left; reflexivity |].
  apply (proj1 (painted_lookup board5 board5_tick1) (cell 4 2)).
  right. left. reflexivity.
Defined.
